(** * Twitter client base: request queue, tweet cache, timeline
      normalisation, timeline population and bootstrap

    A shallow embedding of [core/src/clients/twitter/base.ts].

    - [RequestQueue]: the serialising queue ([add], [processQueue],
      [exponentialBackoff], [randomDelay]) as a machine driven by
      submissions and by wake-ups of its suspended workers.
    - [Cache]: [cacheTweet] / [getCachedTweet] over a small file system.
    - [Timeline]: [fetchHomeTimeline] over JavaScript values.
    - [Await]: awaiting the promise of [add]; [try]/[catch].
    - [Search]: [fetchSearchTweets].
    - [Bootstrap]: the end of the constructor's asynchronous initialisation.
    - [Reconcile]: [populateTimeline] over a record store.
    - [Utf16], [Extract]: JavaScript strings and [extractAnswer].
    - [Fetch]: [getTweet]. [Session]: the cookies and the login of the
      initialisation. [Backfill]: passes of [populateTimeline].
    - [Logger], [Cli]: the logger and the command line of the agent
      ([frameMessage], [log_to_file], [loadCharacters],
      [initializeClients], [startAgent]). *)

From stdpp Require Import gmap strings list fin_maps.
From Stdlib Require Import ZArith.

Open Scope string_scope.
Open Scope list_scope.
Open Scope nat_scope.


(** ** Shared data *)

(** What the code throws. *)
Inductive error :=
| TypeError (msg : string)   (* member access on undefined, bad argument type *)
| IOError (code : string).   (* a failed file-system call *)

(** A computation that returns or throws. *)
Inductive result (A : Type) := Ok (a : A) | Raise (e : error).
Arguments Ok {A} a.
Arguments Raise {A} e.

#[export] Instance result_ret : MRet result := fun A a => Ok a.
#[export] Instance result_bind : MBind result := fun A B f m =>
  match m with
  | Ok a => f a
  | Raise e => Raise e
  end.

(** The fields of a [Tweet] (agent-twitter-client) the client reads.
    [conversationId] and [inReplyToStatusId] may be undefined. *)
Record Tweet := {
  id : string;
  conversationId : option string;
  userId : string;
  username : string;
  name : string;
  text : string;
  permanentUrl : string;
  inReplyToStatusId : option string;
  timestamp : Z
}.

(** ** Request queue *)

Module RequestQueue.

Section Queue.

(** [V] is the type of the values operations resolve with. *)
Context {V : Type}.

(** How one execution of an operation settles. *)
Inductive outcome := Fulfils (v : V) | Throws (e : string).

(** How the call of a queued closure ends for [processQueue]. *)
Inductive completion := Normal | Abrupt (e : string).

(** What an observer of the queue sees, in order of occurrence. *)
Inductive event :=
| Started (t : nat)                (* [request()] is called for ticket [t] *)
| Resolved (t : nat) (v : V)       (* [resolve(result)] *)
| Rejected (t : nat) (e : string)  (* [reject(error)] *)
| LoggedError (e : string)         (* [logger.error] in [processQueue] *)
| Backoff (ms : Z)                 (* [exponentialBackoff]: a sleep of [ms] ms *)
| Paced.                           (* [randomDelay] *)

(** What the queued closures act on: how often each submitted operation
    has run, and the trace. *)
Record heap := { invocations : gmap nat nat; trace : list event }.

Definition emit (e : event) (h : heap) : heap :=
  {| invocations := invocations h; trace := trace h ++ [e] |}.

(** An operation is given by the outcome of its [k]-th execution
    (counting from 0): [fun k => if k is 0 then Throws e else Fulfils v]
    throws once and then succeeds. *)
Definition request := nat -> outcome.

(** An element of [queue : (() => Promise<any>)[]]: a closure, called
    ([invoke]: the part that runs at once) and later settled ([settle]:
    what happens when the awaited operation settles). [ticket] names the
    submission the closure belongs to. *)
Record thunk := {
  ticket : nat;
  invoke : heap -> heap;
  settle : heap -> completion * heap
}.

(** The closure [add] pushes:
    [async () => { try { const result = await request(); resolve(result); }
                   catch (error) { reject(error); } }]. *)
Definition wrapper (t : nat) (req : request) : thunk :=
  {| ticket := t;
     invoke := emit (Started t);
     settle := fun h =>
       let k := default 0 (invocations h !! t) in
       let h' := {| invocations := <[t := S k]> (invocations h);
                    trace := trace h |} in
       match req k with
       | Fulfils v => (Normal, emit (Resolved t v) h')
       | Throws e => (Normal, emit (Rejected t e) h')
       end |}.

(** Where a running [processQueue] is suspended. *)
Inductive cont :=
| AwaitRequest (r : thunk)   (* [await request()] *)
| AwaitBackoff               (* [await this.exponentialBackoff(...)] *)
| AwaitDelay.                (* [await this.randomDelay()] *)

(** [workers] are the suspended calls of [processQueue]; [next_ticket]
    counts the calls of [add]. *)
Record state := {
  queue : list thunk;
  processing : bool;
  workers : list cont;
  next_ticket : nat;
  mem : heap
}.

Definition init : state :=
  {| queue := []; processing := false; workers := []; next_ticket := 0;
     mem := {| invocations := ∅; trace := [] |} |}.

Definition set_queue (q : list thunk) (s : state) : state :=
  {| queue := q; processing := processing s; workers := workers s;
     next_ticket := next_ticket s; mem := mem s |}.
Definition set_processing (b : bool) (s : state) : state :=
  {| queue := queue s; processing := b; workers := workers s;
     next_ticket := next_ticket s; mem := mem s |}.
Definition set_workers (w : list cont) (s : state) : state :=
  {| queue := queue s; processing := processing s; workers := w;
     next_ticket := next_ticket s; mem := mem s |}.
Definition set_next_ticket (n : nat) (s : state) : state :=
  {| queue := queue s; processing := processing s; workers := workers s;
     next_ticket := n; mem := mem s |}.
Definition set_mem (h : heap) (s : state) : state :=
  {| queue := queue s; processing := processing s; workers := workers s;
     next_ticket := next_ticket s; mem := h |}.

(** [exponentialBackoff(retryCount)]: the time the timer takes, in ms.
    The delay is [Math.pow(2, retryCount) * 1000]; [setTimeout] takes
    1 ms for a delay above [2^31 - 1] (so from [retryCount = 22] on, and
    for the delays that are infinite as floating-point numbers). *)
Definition exponentialBackoff (retryCount : nat) : Z :=
  let delay := (2 ^ Z.of_nat retryCount * 1000)%Z in
  if (2147483647 <? delay)%Z then 1%Z else delay.

(** The loop test of [processQueue] and what follows it up to the next
    [await]: either the loop ends ([processing = false], the call
    returns) or the head of the queue is shifted and called. *)
Definition loop (s : state) : state * option cont :=
  match queue s with
  | [] => (set_processing false s, None)
  | r :: rest =>
      (set_mem (invoke r (mem s)) (set_queue rest s), Some (AwaitRequest r))
  end.

(** A suspended [processQueue] is resumed and runs to its next [await]. *)
Definition resume (c : cont) (s : state) : state * option cont :=
  match c with
  | AwaitRequest r =>
      match settle r (mem s) with
      | (Normal, h) => (set_mem (emit Paced h) s, Some AwaitDelay)
      | (Abrupt e, h) =>
          let q := r :: queue s in
          (set_mem (emit (Backoff (exponentialBackoff (length q)))
                      (emit (LoggedError e) h))
             (set_queue q s),
           Some AwaitBackoff)
      end
  | AwaitBackoff => (set_mem (emit Paced (mem s)) s, Some AwaitDelay)
  | AwaitDelay => loop s
  end.

(** [processQueue()], as called from [add]: up to its first [await]. *)
Definition processQueue (s : state) : state :=
  if processing s || bool_decide (length (queue s) = 0) then s
  else
    let '(s', c) := loop (set_processing true s) in
    match c with
    | Some c => set_workers (workers s' ++ [c]) s'
    | None => s'
    end.

(** [add(request)]: the promise it returns is the one of ticket
    [next_ticket s]. *)
Definition add (req : request) (s : state) : state :=
  let t := next_ticket s in
  processQueue (set_next_ticket (S t) (set_queue (queue s ++ [wrapper t req]) s)).

(** The environment: a caller submits an operation, or what the [i]-th
    suspended worker awaits settles. *)
Inductive input := Submit (req : request) | Wake (i : nat).

Definition step (s : state) (a : input) : state :=
  match a with
  | Submit req => add req s
  | Wake i =>
      match workers s !! i with
      | None => s
      | Some c =>
          let '(s', c') := resume c s in
          match c' with
          | Some c'' => set_workers (<[i := c'']> (workers s')) s'
          | None => set_workers (delete i (workers s')) s'
          end
      end
  end.

Definition run (s : state) (sched : list input) : state := foldl step s sched.

(** The operations a schedule submits, in order: the [t]-th one has
    ticket [t]. *)
Definition submitted (sched : list input) : list request :=
  omap (fun a => match a with Submit r => Some r | Wake _ => None end) sched.

(** Observations on traces. *)

(** The tickets whose operation has been called and has not settled. *)
Definition track (open : list nat) (e : event) : list nat :=
  match e with
  | Started t => open ++ [t]
  | Resolved t _ | Rejected t _ => filter (fun u => u ≠ t) open
  | _ => open
  end.
Definition in_flight (tr : list event) : list nat := foldl track [] tr.

(** The tickets in the order their operations were called. *)
Definition started (tr : list event) : list nat :=
  omap (fun e => match e with Started t => Some t | _ => None end) tr.

(** The settlements of the callers' promises, in order. *)
Definition settlements (tr : list event) : list (nat * outcome) :=
  omap (fun e => match e with
                 | Resolved t v => Some (t, Fulfils v)
                 | Rejected t e => Some (t, Throws e)
                 | _ => None
                 end) tr.

(** The state of the promise [add] returned for ticket [t]: a promise
    keeps its first settlement. *)
Definition promise (t : nat) (tr : list event) : option outcome :=
  snd <$> head (filter (fun p => p.1 = t) (settlements tr)).

Definition backoffs (tr : list event) : list Z :=
  omap (fun e => match e with Backoff ms => Some ms | _ => None end) tr.

(** What the trace of a queue that served [reqs], submitted with tickets
    [t], [t+1], ..., looks like when every operation runs once. *)
Definition verdict (t : nat) (req : request) : event :=
  match req 0 with
  | Fulfils v => Resolved t v
  | Throws e => Rejected t e
  end.

Fixpoint served (t : nat) (reqs : list request) : list event :=
  match reqs with
  | [] => []
  | r :: rest => [Started t; verdict t r; Paced] ++ served (S t) rest
  end.

Fixpoint wrappers (t : nat) (reqs : list request) : list thunk :=
  match reqs with
  | [] => []
  | r :: rest => wrapper t r :: wrappers (S t) rest
  end.

(** The outcomes delivered for [reqs], submitted with tickets [t],
    [t+1], ..., when every operation runs once. *)
Fixpoint results (t : nat) (reqs : list request) : list (nat * outcome) :=
  match reqs with
  | [] => []
  | r :: rest => (t, r 0) :: results (S t) rest
  end.

(** The three shapes of a reachable queue: [done] are the operations
    served so far, [rest] the submitted ones that are not. *)
Inductive phase := Idle | Running | Pacing.

Definition at_phase (ph : phase) (done rest : list request) (s : state) : Prop :=
  next_ticket s = length done + length rest ∧
  (∀ t, length done ≤ t → invocations (mem s) !! t = None) ∧
  match ph with
  | Idle =>
      rest = [] ∧ processing s = false ∧ workers s = [] ∧ queue s = [] ∧
      trace (mem s) = served 0 done
  | Running =>
      ∃ r rest',
        rest = r :: rest' ∧ processing s = true ∧
        workers s = [AwaitRequest (wrapper (length done) r)] ∧
        queue s = wrappers (S (length done)) rest' ∧
        trace (mem s) = served 0 done ++ [Started (length done)]
  | Pacing =>
      processing s = true ∧ workers s = [AwaitDelay] ∧
      queue s = wrappers (length done) rest ∧
      trace (mem s) = served 0 done
  end.

Definition consistent (reqs : list request) (s : state) : Prop :=
  ∃ ph done rest, reqs = done ++ rest ∧ at_phase ph done rest s.

End Queue.

(** Three operations: [opB] throws at its first execution and succeeds
    from the second on, the others always succeed. *)
Definition opA : @request string := fun _ => Fulfils "a".
Definition opB : @request string :=
  fun k => match k with 0 => Throws "boom" | S _ => Fulfils "b" end.
Definition opC : @request string := fun _ => Fulfils "c".

Arguments outcome : clear implicits.
Arguments event : clear implicits.
Arguments heap : clear implicits.
Arguments thunk : clear implicits.
Arguments cont : clear implicits.
Arguments state : clear implicits.
Arguments input : clear implicits.
Arguments request : clear implicits.

End RequestQueue.

(** ** Tweet cache *)

Module Cache.

Definition path := list string.

(** The normalisation of [path.join]: [".."] drops the segment before it
    (and stays at the root of an absolute path), ["."] and empty segments
    vanish. [acc] is the path so far, last segment first. *)
Fixpoint resolve (acc : list string) (segs : list string) : path :=
  match segs with
  | [] => reverse acc
  | s :: rest =>
      if decide (s = "..") then resolve (tail acc) rest
      else if decide (s = "." ∨ s = EmptyString) then resolve acc rest
      else resolve (s :: acc) rest
  end.

(** The segments of one argument of [path.join]: the argument is cut at
    every "/" (the character of code 47). *)
Definition slash : Ascii.ascii := Ascii.ascii_of_nat 47.

Fixpoint segments (arg : string) : list string :=
  match arg with
  | EmptyString => [EmptyString]
  | String ch rest =>
      if Ascii.eqb ch slash then EmptyString :: segments rest
      else
        match segments rest with
        | first :: others => String ch first :: others
        | [] => [String ch EmptyString]
        end
  end.

(** [path.join(base, ...args)] for an absolute, normalised [base] (here
    [__dirname]): the arguments are joined with "/", and the path is cut
    at every "/" and normalised. *)
Definition path_join (base : path) (args : list string) : path :=
  resolve [] (base ++ (args ≫= segments)).

(** [path.dirname] of a normalised path. *)
Definition path_dirname (p : path) : path := removelast p.

Fixpoint ancestors (p : path) : list path :=
  match p with
  | [] => [[]]
  | s :: rest => [] :: map (cons s) (ancestors rest)
  end.

(** The file system: a file holds the JSON text of a tweet and is
    represented by the tweet this text parses to
    ([JSON.parse (JSON.stringify tweet)] is [tweet] for the plain data of
    a [Tweet]). Calls on the paths in [faulty] fail (permissions, a full
    disk). *)
Record fsys := {
  files : gmap path Tweet;
  dirs : gset path;
  faulty : gset path
}.

(** [fs.promises.mkdir(d, { recursive: true })]. *)
Definition mkdir (d : path) (fs : fsys) : result fsys :=
  if decide (d ∈ faulty fs) then Raise (IOError "EACCES")
  else if decide (is_Some (files fs !! d)) then Raise (IOError "EEXIST")
  else Ok {| files := files fs;
             dirs := list_to_set (ancestors d) ∪ dirs fs;
             faulty := faulty fs |}.

(** [fs.promises.writeFile(p, JSON.stringify(tweet, null, 2))]. *)
Definition writeFile (p : path) (tweet : Tweet) (fs : fsys) : result fsys :=
  if decide (p ∈ faulty fs) then Raise (IOError "EACCES")
  else if decide (path_dirname p ∈ dirs fs)
       then Ok {| files := <[p := tweet]> (files fs);
                  dirs := dirs fs;
                  faulty := faulty fs |}
       else Raise (IOError "ENOENT").

(** [JSON.parse(await fs.promises.readFile(p, "utf-8"))]. *)
Definition readFile (p : path) (fs : fsys) : result Tweet :=
  match files fs !! p with
  | Some tweet => Ok tweet
  | None => Raise (IOError "ENOENT")
  end.

(** [glob(pattern)]: the files whose path matches the pattern segment by
    segment; the segment ["*"] matches any one segment. The order of the
    matches is the one of the directory scan. *)
Definition seg_matches (pat seg : string) : bool :=
  bool_decide (pat = "*") || bool_decide (pat = seg).

Fixpoint matches (pat : list string) (p : path) : bool :=
  match pat, p with
  | [], [] => true
  | a :: pat', s :: p' => seg_matches a s && matches pat' p'
  | _, _ => false
  end.

Definition glob (pat : list string) (fs : fsys) : list path :=
  filter (fun p => matches pat p = true) (fst <$> map_to_list (files fs)).

(** The client: the in-memory tier, the disk, and what [logger.warn]
    printed. *)
Record client := {
  tweetCache : gmap string Tweet;
  disk : fsys;
  warnings : list string
}.

Section Located.

(** [__dirname]: the directory of the module, as an absolute path. *)
Variable dirname : path.

(** [cacheTweet(tweet)]; [None] is an undefined (or null) argument. A
    raised error leaves the client as it was when the error occurred. *)
Definition cacheTweet (tweet : option Tweet) (c : client) : result unit * client :=
  match tweet with
  | None =>
      (Ok (), {| tweetCache := tweetCache c; disk := disk c;
                 warnings := warnings c ++ ["Tweet is undefined, skipping cache"] |})
  | Some tweet =>
      match conversationId tweet with
      | None => (Raise (TypeError "The path argument must be of type string"), c)
      | Some conv =>
          let cacheDir :=
            path_join dirname ["../../../tweetcache"; conv; id tweet +:+ ".json"] in
          match mkdir (path_dirname cacheDir) (disk c) with
          | Raise e => (Raise e, c)
          | Ok fs1 =>
              match writeFile cacheDir tweet fs1 with
              | Raise e =>
                  (Raise e, {| tweetCache := tweetCache c; disk := fs1;
                               warnings := warnings c |})
              | Ok fs2 =>
                  (Ok (), {| tweetCache := <[id tweet := tweet]> (tweetCache c);
                             disk := fs2;
                             warnings := warnings c |})
              end
          end
      end
  end.

(** [getCachedTweet(tweetId)]. *)
Definition getCachedTweet (tweetId : string) (c : client)
  : result (option Tweet) * client :=
  match tweetCache c !! tweetId with
  | Some tweet => (Ok (Some tweet), c)
  | None =>
      let cacheFile := path_join dirname ["tweetcache"; "*"; tweetId +:+ ".json"] in
      match glob cacheFile (disk c) with
      | f :: _ =>
          match readFile f (disk c) with
          | Raise e => (Raise e, c)
          | Ok tweet =>
              (Ok (Some tweet),
               {| tweetCache := <[id tweet := tweet]> (tweetCache c);
                  disk := disk c;
                  warnings := warnings c |})
          end
      | [] => (Ok None, c)
      end
  end.

End Located.

(** An ordinary path segment, and a normalised absolute directory. *)
Definition regular (seg : string) : Prop :=
  seg ≠ ".." ∧ seg ≠ "." ∧ seg ≠ EmptyString.

(** A string without "/", as the ids the remote service issues are. *)
Fixpoint plain (s : string) : bool :=
  match s with
  | EmptyString => true
  | String ch rest => negb (Ascii.eqb ch slash) && plain rest
  end.

Definition clean (d : path) : Prop := Forall regular d.

(** A restart of the process: the in-memory tier is lost, the disk stays. *)
Definition restart (c : client) : client :=
  {| tweetCache := ∅; disk := disk c; warnings := [] |}.

Definition fresh : client :=
  {| tweetCache := ∅;
     disk := {| files := ∅; dirs := ∅; faulty := ∅ |};
     warnings := [] |}.

(** The directory of [base.ts] in a checkout under [/app], a tweet, and
    a disk that refuses the tweet's cache file. *)
Definition module_dir : path := ["app"; "core"; "src"; "clients"; "twitter"].

Definition sample : Tweet :=
  {| id := "1"; conversationId := Some "10"; userId := "u1"; username := "alice";
     name := "Alice"; text := "hello"; permanentUrl := "https://t/1";
     inReplyToStatusId := None; timestamp := 100 |}.

(** A tweet whose conversation id leads from the directory [cacheTweet]
    writes under to the one [getCachedTweet] reads. *)
Definition wandering : Tweet :=
  {| id := "1"; conversationId := Some "../src/clients/twitter/tweetcache/10";
     userId := "u1"; username := "alice"; name := "Alice"; text := "hello";
     permanentUrl := "https://t/1"; inReplyToStatusId := None; timestamp := 100 |}.

Definition refusing : client :=
  {| tweetCache := ∅;
     disk := {| files := ∅; dirs := ∅;
                faulty := {[ ["app"; "core"; "tweetcache"; "10"; "1.json"] ]} |};
     warnings := [] |}.

End Cache.

(** ** Home timeline *)

Module Timeline.

(** The values of the remote response. *)
#[warnings="-register-all"]
Inductive js :=
| JUndefined
| JNull
| JBool (b : bool)
| JNum (n : Z)
| JStr (s : string)
| JArr (items : list js)
| JObj (fields : list (string * js)).

Fixpoint assoc (k : string) (fields : list (string * js)) : js :=
  match fields with
  | [] => JUndefined
  | (k', v) :: rest => if decide (k' = k) then v else assoc k rest
  end.

Definition nullish (v : js) : bool :=
  match v with
  | JUndefined | JNull => true
  | _ => false
  end.

(** [o.k]: throws on undefined and null, is undefined where the property
    is missing. *)
Definition member (k : string) (o : js) : result js :=
  match o with
  | JUndefined | JNull => Raise (TypeError "Cannot read properties of undefined")
  | JObj fields => Ok (assoc k fields)
  | _ => Ok JUndefined
  end.

(** [o?. rest]: the rest of the chain is skipped when [o] is nullish. *)
Definition optional (o : js) (rest : js -> result js) : result js :=
  if nullish o then Ok JUndefined else rest o.

(** [a ?? b]: [b] is evaluated only when [a] is nullish. *)
Definition coalesce (a : js) (b : result js) : result js :=
  if nullish a then b else Ok a.

(** [v === "s"]. *)
Definition is_str (s : string) (v : js) : bool :=
  match v with
  | JStr s' => bool_decide (s' = s)
  | _ => false
  end.

Fixpoint filter_r {A} (p : A -> result bool) (l : list A) : result (list A) :=
  match l with
  | [] => Ok []
  | x :: rest =>
      b ← p x;
      kept ← filter_r p rest;
      Ok (if b : bool then x :: kept else kept)
  end.

Fixpoint map_r {A B} (f : A -> result B) (l : list A) : result (list B) :=
  match l with
  | [] => Ok []
  | x :: rest =>
      y ← f x;
      ys ← map_r f rest;
      Ok (y :: ys)
  end.

(** [tweet.core?.user_results?.result?.legacy.k]. *)
Definition user_legacy (k : string) (tweet : js) : result js :=
  core ← member "core" tweet;
  optional core (fun core =>
    user_results ← member "user_results" core;
    optional user_results (fun user_results =>
      res ← member "result" user_results;
      optional res (fun res =>
        legacy ← member "legacy" res;
        member k legacy))).

(** [tweet.legacy?.k]. *)
Definition legacy (k : string) (tweet : js) : result js :=
  l ← member "legacy" tweet;
  optional l (member k).

(** [tweet.legacy?.entities.k]. *)
Definition legacy_entities (k : string) (tweet : js) : result js :=
  l ← member "legacy" tweet;
  optional l (fun l =>
    entities ← member "entities" l;
    member k entities).

(** [tweet.legacy?.entities.media?.filter((media) => media.type === kind)]. *)
Definition legacy_media (kind : string) (tweet : js) : result js :=
  l ← member "legacy" tweet;
  optional l (fun l =>
    entities ← member "entities" l;
    media ← member "media" entities;
    optional media (fun media =>
      match media with
      | JArr items =>
          kept ← filter_r (fun m => ty ← member "type" m; Ok (is_str kind ty)) items;
          Ok (JArr kept)
      | _ => Raise (TypeError "filter is not a function")
      end)).

(** [tweet.k ?? fallback]. *)
Definition prefer (k : string) (fallback : result js) (tweet : js) : result js :=
  flat ← member k tweet;
  coalesce flat fallback.

(** The object the callback of [map] builds. *)
Record Normalized := {
  id : js;
  name : js;
  username : js;
  text : js;
  inReplyToStatusId : js;
  createdAt : js;
  userId : js;
  conversationId : js;
  hashtags : js;
  mentions : js;
  photos : js;
  thread : js;
  urls : js;
  videos : js
}.

Definition normalize (tweet : js) : result Normalized :=
  v_id ← member "rest_id" tweet;
  v_name ← prefer "name" (user_legacy "name" tweet) tweet;
  v_username ← prefer "username" (user_legacy "screen_name" tweet) tweet;
  v_text ← prefer "text" (legacy "full_text" tweet) tweet;
  v_inReplyToStatusId ←
    prefer "inReplyToStatusId" (legacy "in_reply_to_status_id_str" tweet) tweet;
  v_createdAt ← prefer "createdAt" (legacy "created_at" tweet) tweet;
  v_userId ← prefer "userId" (legacy "user_id_str" tweet) tweet;
  v_conversationId ←
    prefer "conversationId" (legacy "conversation_id_str" tweet) tweet;
  v_hashtags ← prefer "hashtags" (legacy_entities "hashtags" tweet) tweet;
  v_mentions ← prefer "mentions" (legacy_entities "user_mentions" tweet) tweet;
  v_photos ←
    prefer "photos"
      (m ← legacy_media "photo" tweet; coalesce m (Ok (JArr []))) tweet;
  v_urls ← prefer "urls" (legacy_entities "urls" tweet) tweet;
  v_videos ←
    prefer "videos"
      (m ← legacy_media "video" tweet; coalesce m (Ok (JArr []))) tweet;
  Ok {| id := v_id; name := v_name; username := v_username; text := v_text;
        inReplyToStatusId := v_inReplyToStatusId; createdAt := v_createdAt;
        userId := v_userId; conversationId := v_conversationId;
        hashtags := v_hashtags; mentions := v_mentions; photos := v_photos;
        thread := JArr []; urls := v_urls; videos := v_videos |}.

(** The predicate of [filter]: [t.__typename !== "TweetWithVisibilityResults"]. *)
Definition visible (t : js) : result bool :=
  ty ← member "__typename" t;
  Ok (negb (is_str "TweetWithVisibilityResults" ty)).

(** [fetchHomeTimeline(count)]; [homeTimeline] is what
    [twitterClient.fetchHomeTimeline(count, [])] settled with. *)
Definition fetchHomeTimeline (homeTimeline : result (list js))
  : result (list Normalized) :=
  raw ← homeTimeline;
  kept ← filter_r visible raw;
  map_r normalize kept.

(** The logical fields that have a flattened and a legacy source. *)
Inductive field :=
| FName | FUsername | FText | FInReplyToStatusId | FCreatedAt | FUserId
| FConversationId | FHashtags | FMentions | FPhotos | FUrls | FVideos.

Definition flat_key (f : field) : string :=
  match f with
  | FName => "name" | FUsername => "username" | FText => "text"
  | FInReplyToStatusId => "inReplyToStatusId" | FCreatedAt => "createdAt"
  | FUserId => "userId" | FConversationId => "conversationId"
  | FHashtags => "hashtags" | FMentions => "mentions" | FPhotos => "photos"
  | FUrls => "urls" | FVideos => "videos"
  end.

Definition project (f : field) (obj : Normalized) : js :=
  match f with
  | FName => name obj | FUsername => username obj | FText => text obj
  | FInReplyToStatusId => inReplyToStatusId obj | FCreatedAt => createdAt obj
  | FUserId => userId obj | FConversationId => conversationId obj
  | FHashtags => hashtags obj | FMentions => mentions obj
  | FPhotos => photos obj | FUrls => urls obj | FVideos => videos obj
  end.

(** The wire shapes, read off the raw entry and not through the
    normaliser. [at_path path v] is the value found in [v] by following
    the keys of [path] through nested objects; it is undefined where a
    key is missing or a value on the way is not an object. *)
Fixpoint at_path (path : list string) (v : js) : js :=
  match path with
  | [] => v
  | k :: rest =>
      match v with
      | JObj fields => at_path rest (assoc k fields)
      | _ => JUndefined
      end
  end.

Definition is_obj (v : js) : bool :=
  match v with
  | JObj _ => true
  | _ => false
  end.

(** Where the legacy shape keeps a logical field. *)
Definition legacy_path (f : field) : list string :=
  match f with
  | FName => ["core"; "user_results"; "result"; "legacy"; "name"]
  | FUsername => ["core"; "user_results"; "result"; "legacy"; "screen_name"]
  | FText => ["legacy"; "full_text"]
  | FInReplyToStatusId => ["legacy"; "in_reply_to_status_id_str"]
  | FCreatedAt => ["legacy"; "created_at"]
  | FUserId => ["legacy"; "user_id_str"]
  | FConversationId => ["legacy"; "conversation_id_str"]
  | FHashtags => ["legacy"; "entities"; "hashtags"]
  | FMentions => ["legacy"; "entities"; "user_mentions"]
  | FPhotos => ["legacy"; "entities"; "media"]
  | FUrls => ["legacy"; "entities"; "urls"]
  | FVideos => ["legacy"; "entities"; "media"]
  end.

(** The media of one kind among the media of the legacy shape; none
    where the legacy shape has no media. *)
Definition media_of_kind (kind : string) (media : js) : js :=
  match media with
  | JArr items =>
      JArr (filter (fun m => is_str kind (at_path ["type"] m) = true) items)
  | _ => JArr []
  end.

(** The value of a logical field in the legacy shape of the raw entry. *)
Definition legacy_value (f : field) (tweet : js) : js :=
  let raw := at_path (legacy_path f) tweet in
  match f with
  | FPhotos => media_of_kind "photo" raw
  | FVideos => media_of_kind "video" raw
  | _ => raw
  end.

(** The entry carries the legacy shape: the legacy object of the tweet
    with its entities, the legacy object of its author, and media (if
    any) that are a list without holes. *)
Definition carries_legacy (tweet : js) : bool :=
  is_obj (at_path ["core"; "user_results"; "result"; "legacy"] tweet) &&
  is_obj (at_path ["legacy"; "entities"] tweet) &&
  match at_path ["legacy"; "entities"; "media"] tweet with
  | JArr items => forallb (fun m => negb (nullish m)) items
  | JUndefined | JNull => true
  | _ => false
  end.

(** What the normalised field is to be: the flattened value of the raw
    entry where there is one (not undefined, not null), the value of the
    legacy shape otherwise. *)
Definition preferred (f : field) (tweet : js) : js :=
  let flat := at_path [flat_key f] tweet in
  if nullish flat then legacy_value f tweet else flat.

(** A candidate in both wire shapes, with conflicting texts and names. *)
Definition both_shapes : js :=
  JObj [("__typename", JStr "Tweet");
        ("rest_id", JStr "1001");
        ("text", JStr "flattened text");
        ("name", JStr "Flat Name");
        ("core", JObj [("user_results", JObj [("result", JObj [("legacy",
            JObj [("name", JStr "Legacy Name");
                  ("screen_name", JStr "legacy_handle")])])])]);
        ("legacy", JObj [("full_text", JStr "legacy text");
                         ("user_id_str", JStr "77");
                         ("conversation_id_str", JStr "1000");
                         ("entities", JObj [("hashtags", JArr []);
                                            ("user_mentions", JArr []);
                                            ("urls", JArr []);
                                            ("media", JArr [JObj [("type", JStr "photo")];
                                                            JObj [("type", JStr "video")]])])])].

(** A visibility-restricted entry. *)
Definition restricted : js :=
  JObj [("__typename", JStr "TweetWithVisibilityResults");
        ("tweet", JObj [("rest_id", JStr "1002")])].

End Timeline.

(** ** Awaiting the queue *)

Module Await.
Import RequestQueue.

Section Await.
Context {V : Type}.

(** [await this.requestQueue.add(req)], called when the queue is in
    state [s]; [after] is what happens to the queue from then on. [None]:
    the promise has not settled yet. *)
Definition await_add (s : state V) (req : request V) (after : list (input V))
  : option (outcome V) :=
  promise (next_ticket s) (trace (mem (run (add req s) after))).

(** [try { body } catch (error) { handler }]. *)
Definition try_catch {A} (body : outcome A) (handler : string -> outcome A)
  : outcome A :=
  match body with
  | Throws e => handler e
  | Fulfils a => Fulfils a
  end.

End Await.
End Await.

(** ** Search *)

Module Search.
Import RequestQueue Await.

Record QueryTweetsResponse := { tweets : list Tweet }.

(** [{ tweets: [] }]. *)
Definition empty : QueryTweetsResponse := {| tweets := [] |}.

(** [twitterClient.fetchSearchTweets(...)] against the timer of
    [timeoutPromise]: the call settles before the timer fires, with a
    response (which may be undefined) or an error, or it is still pending
    when the timer fires. *)
Inductive remote :=
| Settles (o : outcome (option QueryTweetsResponse))
| Pending.

(** [Promise.race([twitterClient.fetchSearchTweets(...), timeoutPromise])]. *)
Definition race (r : remote) : outcome (option QueryTweetsResponse) :=
  match r with
  | Settles o => o
  | Pending => Fulfils (Some empty)
  end.

(** [fetchSearchTweets(query, maxTweets, searchMode, cursor)], called when
    the queue is in state [s]; [None]: the call has not returned yet. *)
Definition fetchSearchTweets (s : state (option QueryTweetsResponse))
    (after : list (input (option QueryTweetsResponse))) (r : remote)
  : option (outcome QueryTweetsResponse) :=
  settled ← await_add s (fun _ => race r) after;
  Some
    (try_catch
       (try_catch
          (match settled with
           | Fulfils result => Fulfils (default empty result)
           | Throws e => Throws e
           end)
          (fun error => Fulfils empty))
       (fun error => Fulfils empty)).

(** What the caller is to get. *)
Definition expected (r : remote) : QueryTweetsResponse :=
  match r with
  | Settles (Fulfils (Some response)) => response
  | _ => empty
  end.

End Search.

(** ** Bootstrap *)

Module Bootstrap.
Import RequestQueue Await.

(** What the end of the initialisation does, in order. *)
Inductive action :=
| LogError (msg : string)
| LogInfo (msg : string)
| SetTwitterUserId (userId : string)
| PopulateTimeline
| OnReady
| Emit (signal : string).

(** The operation submitted for the user id: after the fixed delay,
    [try { return await this.twitterClient.getUserIdByScreenName(...) }
     catch (error) { logger.error(...); return null; }].
    [remote k] is how the [k]-th remote call settles; [None] is null or
    undefined. *)
Definition user_id_request (remote : nat -> outcome (option string))
  : request (option string) :=
  fun k =>
    match remote k with
    | Fulfils userId => Fulfils userId
    | Throws e => Fulfils None
    end.

(** [!userId]. *)
Definition falsy (userId : option string) : bool :=
  match userId with
  | None => true
  | Some u => bool_decide (u = EmptyString)
  end.

(** What the outer [catch] of the initialisation does. *)
Definition initialization_failed : list action :=
  [LogError "Error during Twitter client initialization:";
   Emit "initializationError"].

(** The initialisation from the submission of the user-id operation on
    (the login loop has ended). [populate] and [ready] are how
    [populateTimeline()] and [onReady()] end when they are called.
    [None]: the queue has not delivered the user id yet. *)
Definition finish_initialization (s : state (option string))
    (after : list (input (option string)))
    (remote : nat -> outcome (option string))
    (populate ready : outcome unit)
  : option (list action) :=
  settled ← await_add s (user_id_request remote) after;
  Some
    match settled with
    | Throws e => initialization_failed
    | Fulfils userId =>
        ((match remote 0 with
          | Throws e => [LogError "Error getting user ID:"]
          | Fulfils _ => []
          end) ++
         if falsy userId then [LogError "Failed to get user ID"]
         else
           [LogInfo "Twitter user ID:";
            SetTwitterUserId (default EmptyString userId);
            PopulateTimeline] ++
           match populate with
           | Throws e => initialization_failed
           | Fulfils _ =>
               OnReady ::
               match ready with
               | Throws e => initialization_failed
               | Fulfils _ => []
               end
           end)
    end.

(** The resolution of the user id fails: the remote call throws, or it
    yields no identifier. *)
Definition no_identifier (o : outcome (option string)) : bool :=
  match o with
  | Throws _ => true
  | Fulfils userId => falsy userId
  end.

(** What the initialisation does then. *)
Definition aborted (o : outcome (option string)) : list action :=
  match o with
  | Throws e => [LogError "Error getting user ID:"; LogError "Failed to get user ID"]
  | Fulfils _ => [LogError "Failed to get user ID"]
  end.

(** A remote that is rate limited. *)
Definition rate_limited : nat -> outcome (option string) :=
  fun _ => Throws "rate limited".

(** How often the user-id operation was called on the queue. *)
Definition remote_calls (s : state (option string))
    (after : list (input (option string)))
    (remote : nat -> outcome (option string)) : nat :=
  length (filter (fun t => t = next_ticket s)
            (started (trace (mem (run (add (user_id_request remote) s) after))))).

End Bootstrap.

(** ** Timeline population *)

Module Reconcile.

Record Content := {
  c_text : string;
  c_url : string;
  c_source : string;
  c_inReplyTo : option string
}.

(** A record of the message store ([embedding] is the constant zero
    vector and is left out). *)
Record Memory := {
  m_id : string;
  m_userId : string;
  m_content : Content;
  m_agentId : string;
  m_roomId : string;
  m_createdAt : Z
}.

(** What [populateTimeline] reads and writes: the message store, the
    snapshot file [timeline_cache.json] ([None]: the file does not exist),
    and the calls of [ensureConnection], [ensureUserExists] and
    [createMemory] it has made, in order. *)
Record world := {
  memories : list Memory;
  timeline_cache : option (list Tweet);
  connections : list (string * string * string * string * string);
  users : list (string * string * string * string);
  creates : list Memory
}.

(** Modelled from the spec: the message manager of the runtime (the
    record store) is not among the sources; it offers "fetch records by
    room", "fetch record by id" and "persist record". *)
Definition getMemoriesByRoomIds (agentId : string) (roomIds : list string)
    (w : world) : list Memory :=
  filter (fun m => m_agentId m = agentId ∧ m_roomId m ∈ roomIds) (memories w).

(** Modelled from the spec: the message manager, "fetch record by id". *)
Definition getMemoryById (key : string) (w : world) : option Memory :=
  head (filter (fun m => m_id m = key) (memories w)).

(** Modelled from the spec: the message manager, "persist record".
    Record creation on the store is idempotent: a record whose id the
    store already holds is not stored again. The call is recorded in
    either case. *)
Definition createMemory (m : Memory) (w : world) : world :=
  {| memories := if decide (m_id m ∈ map m_id (memories w)) then memories w
                 else memories w ++ [m];
     timeline_cache := timeline_cache w;
     connections := connections w; users := users w;
     creates := creates w ++ [m] |}.

(** Modelled from the spec: the runtime's idempotent "ensure connection"
    call, recorded. *)
Definition ensureConnection (userId roomId username name source : string)
    (w : world) : world :=
  {| memories := memories w; timeline_cache := timeline_cache w;
     connections := connections w ++ [(userId, roomId, username, name, source)];
     users := users w; creates := creates w |}.

(** Modelled from the spec: the runtime's "ensure user exists" call,
    recorded. *)
Definition ensureUserExists (userId username name source : string)
    (w : world) : world :=
  {| memories := memories w; timeline_cache := timeline_cache w;
     connections := connections w;
     users := users w ++ [(userId, username, name, source)];
     creates := creates w |}.

(** [fs.writeFileSync(cacheFile, JSON.stringify(allTweets))]. *)
Definition write_cache (tweets : list Tweet) (w : world) : world :=
  {| memories := memories w; timeline_cache := Some tweets;
     connections := connections w; users := users w; creates := creates w |}.

(** An undefined value inside a string concatenation. *)
Definition str (o : option string) : string := default "undefined" o.

(** [Array.from(new Set(ids))]: the first occurrence of each id, in order. *)
Fixpoint unique (seen : list string) (ids : list string) : list string :=
  match ids with
  | [] => []
  | i :: rest =>
      if decide (i ∈ seen) then unique seen rest
      else i :: unique (i :: seen) rest
  end.

Section Runtime.

(** [stringToUuid] (core/uuid.ts), [runtime.agentId], [twitterUserId],
    the setting TWITTER_USERNAME and [runtime.character.name]. *)
Variable stringToUuid : string -> string.
Variables agentId twitterUserId twitterUsername characterName : string.

(** The derived key of a tweet. *)
Definition derived_key (tweet : Tweet) : string :=
  stringToUuid (id tweet +:+ "-" +:+ agentId).

Definition room_of (tweet : Tweet) : string :=
  stringToUuid (default ("default-room-" +:+ agentId) (conversationId tweet)).

Definition author_of (tweet : Tweet) : string :=
  if decide (userId tweet = twitterUserId) then agentId
  else stringToUuid (userId tweet).

(** The loop of the branch taken when the snapshot exists and some of
    its tweets are found in the store. *)
Fixpoint save_missing (tweetsToSave : list Tweet) (w : world) : world :=
  match tweetsToSave with
  | [] => w
  | tweet :: rest =>
      let roomId := room_of tweet in
      let tweetuserId := author_of tweet in
      let w1 := ensureConnection tweetuserId roomId (username tweet)
                  (name tweet) "twitter" w in
      let content :=
        {| c_text := text tweet; c_url := permanentUrl tweet;
           c_source := "twitter";
           c_inReplyTo :=
             match inReplyToStatusId tweet with
             | Some r =>
                 if decide (r = EmptyString) then None
                 else Some (stringToUuid (r +:+ "-" +:+ agentId))
             | None => None
             end |} in
      match getMemoryById (derived_key tweet) w1 with
      | Some _ => w1
      | None =>
          save_missing rest
            (createMemory
               {| m_id := derived_key tweet; m_userId := tweetuserId;
                  m_content := content; m_agentId := agentId;
                  m_roomId := roomId; m_createdAt := (timestamp tweet * 1000)%Z |}
               w1)
      end
  end.

(** The loop of the other branch. *)
Fixpoint save_new (tweetsToSave : list Tweet) (w : world) : world :=
  match tweetsToSave with
  | [] => w
  | tweet :: rest =>
      let roomId := room_of tweet in
      let tweetuserId := author_of tweet in
      let w1 := ensureConnection tweetuserId roomId (username tweet)
                  (name tweet) "twitter" w in
      let content :=
        {| c_text := text tweet; c_url := permanentUrl tweet;
           c_source := "twitter";
           c_inReplyTo :=
             match inReplyToStatusId tweet with
             | Some r =>
                 if decide (r = EmptyString) then None
                 else Some (stringToUuid r)
             | None => None
             end |} in
      save_new rest
        (createMemory
           {| m_id := derived_key tweet; m_userId := tweetuserId;
              m_content := content; m_agentId := agentId;
              m_roomId := roomId; m_createdAt := (timestamp tweet * 1000)%Z |}
           w1)
  end.

(** The part of [populateTimeline] after the snapshot branch: [mentions]
    is the list [fetchSearchTweets] returned. *)
Definition populate_from_search (mentions : list Tweet) (w : world) : world :=
  let allTweets := mentions in
  let tweetUuids :=
    map (fun i => stringToUuid (i +:+ "-" +:+ agentId)) (unique [] (map id allTweets)) in
  let existingMemories := getMemoriesByRoomIds agentId tweetUuids w in
  let existingMemoryIds := map m_roomId existingMemories in
  let tweetsToSave :=
    filter (fun tweet => derived_key tweet ∉ existingMemoryIds) allTweets in
  let w1 := ensureUserExists agentId twitterUsername characterName "twitter" w in
  write_cache allTweets (save_new tweetsToSave w1).

(** [populateTimeline()]. *)
Definition populateTimeline (mentions : list Tweet) (w : world) : world :=
  match timeline_cache w with
  | Some cachedResults =>
      let existingMemories :=
        getMemoriesByRoomIds agentId
          (map (fun tweet => stringToUuid (str (conversationId tweet) +:+ "-" +:+ agentId))
             cachedResults) w in
      let existingMemoryIds := map m_id existingMemories in
      let someCachedTweetsExist :=
        existsb (fun tweet => bool_decide (id tweet ∈ existingMemoryIds)) cachedResults in
      if someCachedTweetsExist then
        let tweetsToSave :=
          filter (fun tweet => id tweet ∉ existingMemoryIds) cachedResults in
        save_missing tweetsToSave w
      else populate_from_search mentions w
  | None => populate_from_search mentions w
  end.

(** The ids of the records [populateTimeline] asked the store to create:
    those of its calls of [createMemory], in order. *)
Definition created (before after : world) : list string :=
  map m_id (drop (length (creates before)) (creates after)).

End Runtime.

(** Modelled from the spec: [stringToUuid] (core/uuid.ts is not among
    the sources) is a deterministic function of its argument. For the
    examples, one whose values are told apart from tweet ids. *)
Definition tagged (s : string) : string := "uuid:" +:+ s.

(** A snapshot of two tweets; the store holds the record of the first. *)
Definition tweet1 : Tweet :=
  {| id := "1"; conversationId := Some "10"; userId := "u1"; username := "alice";
     name := "Alice"; text := "first"; permanentUrl := "https://t/1";
     inReplyToStatusId := None; timestamp := 100 |}.

Definition tweet2 : Tweet :=
  {| id := "2"; conversationId := Some "20"; userId := "u2"; username := "bob";
     name := "Bob"; text := "second"; permanentUrl := "https://t/2";
     inReplyToStatusId := None; timestamp := 200 |}.

Definition record1 : Memory :=
  {| m_id := tagged "1-agent"; m_userId := tagged "u1";
     m_content := {| c_text := "first"; c_url := "https://t/1";
                     c_source := "twitter"; c_inReplyTo := None |};
     m_agentId := "agent"; m_roomId := tagged "10-agent"; m_createdAt := 100000 |}.

Definition resumed : world :=
  {| memories := [record1]; timeline_cache := Some [tweet1; tweet2];
     connections := []; users := []; creates := [] |}.

End Reconcile.

(** ** JavaScript strings *)

Module Utf16.

(** A JavaScript string is the sequence of its UTF-16 code units:
    [length], [indexOf], [slice], [substring], [repeat], [split] and
    [endsWith] count and cut in code units. *)
Definition jstring := list N.

(** The JavaScript string of a text of ASCII characters: one code unit
    per character, of the same code. *)
Definition lit (s : string) : jstring :=
  map Ascii.N_of_ascii (String.list_ascii_of_string s).

Fixpoint starts_with (pat text : jstring) : bool :=
  match pat, text with
  | [], _ => true
  | _ :: _, [] => false
  | p :: pat', t :: text' => N.eqb p t && starts_with pat' text'
  end.

(** The position of the first occurrence of [pat] in [text], the first
    unit of [text] being at position [pos]. *)
Fixpoint first_from (pat text : jstring) (pos : nat) : option nat :=
  match text with
  | [] => if starts_with pat [] then Some pos else None
  | _ :: rest =>
      if starts_with pat text then Some pos else first_from pat rest (S pos)
  end.

(** [text.indexOf(pat, from)]: the position of the first occurrence of
    [pat] in [text] that starts at [from] or later, [-1] if there is none. *)
Definition indexOf (pat text : jstring) (from : nat) : Z :=
  let start := Nat.min from (length text) in
  match first_from pat (drop start text) start with
  | Some m => Z.of_nat m
  | None => (-1)%Z
  end.

(** How [slice] reads an index: a negative one counts from the end, and
    the result stays within the string. *)
Definition clamp (len : nat) (i : Z) : nat :=
  if (i <? 0)%Z then Z.to_nat (Z.max (Z.of_nat len + i) 0)
  else Nat.min (Z.to_nat i) len.

(** [text.slice(from, to)]. *)
Definition slice (text : jstring) (from to : Z) : jstring :=
  let a := clamp (length text) from in
  let b := clamp (length text) to in
  take (b - a) (drop a text).

Fixpoint repeat_units (s : jstring) (n : nat) : jstring :=
  match n with
  | 0 => []
  | S n' => s ++ repeat_units s n'
  end.

(** [s.repeat(count)]: a RangeError ([None]) for a negative count. *)
Definition repeat (s : jstring) (count : Z) : option jstring :=
  if (count <? 0)%Z then None else Some (repeat_units s (Z.to_nat count)).

(** [s.split(sep)] for a separator of one code unit. *)
Fixpoint split (sep : N) (s : jstring) : list jstring :=
  match s with
  | [] => [[]]
  | u :: rest =>
      if N.eqb u sep then [] :: split sep rest
      else
        match split sep rest with
        | first :: others => (u :: first) :: others
        | [] => [[u]]
        end
  end.

(** [list.join(sep)]. *)
Fixpoint join (sep : jstring) (l : list jstring) : jstring :=
  match l with
  | [] => []
  | [x] => x
  | x :: rest => x ++ sep ++ join sep rest
  end.

(** [s.endsWith(suffix)]. *)
Definition endsWith (s suffix : jstring) : bool :=
  (length suffix <=? length s) &&
  bool_decide (drop (length s - length suffix) s = suffix).

(** The line feed (code 10), and the string of one line feed. *)
Definition line_feed : N := 10%N.
Definition newline : jstring := [line_feed].

End Utf16.

(** ** Answer extraction *)

Module Extract.
Import Utf16.

Definition end_marker : jstring := lit "<|endoftext|>".

(** [extractAnswer(text)]. *)
Definition extractAnswer (text : jstring) : jstring :=
  let startIndex := (indexOf (lit "Answer: ") text 0 + 8)%Z in
  let endIndex := indexOf end_marker text 11 in
  slice text startIndex endIndex.

(** The end marker right after [answer] is the first one that starts at
    the fourth code unit of [answer] or later. *)
Definition closed_by_marker (answer : jstring) : Prop :=
  first_from end_marker (drop 3 (answer ++ end_marker)) 3 = Some (length answer).

End Extract.

(** ** Fetching a tweet *)

Module Fetch.
Import RequestQueue Await Cache.

(** What [getTweet] throws: the error of the remote call, or an error of
    the cache. *)
Inductive thrown := Remote (e : string) | Local (e : error).

(** [getTweet(tweetId)], called when the queue is in state [s]; [remote]
    is how [twitterClient.getTweet(tweetId)] settles (with a tweet, or
    with null). [None]: the call has not returned yet. *)
Definition getTweet (dirname : path) (s : state (option Tweet))
    (after : list (input (option Tweet))) (remote : outcome (option Tweet))
    (tweetId : string) (c : client)
  : option ((thrown + option Tweet) * client) :=
  match getCachedTweet dirname tweetId c with
  | (Raise e, c1) => Some (inl (Local e), c1)
  | (Ok (Some cachedTweet), c1) => Some (inr (Some cachedTweet), c1)
  | (Ok None, c1) =>
      match await_add s (fun _ => remote) after with
      | None => None
      | Some (Throws e) => Some (inl (Remote e), c1)
      | Some (Fulfils tweet) =>
          match cacheTweet dirname tweet c1 with
          | (Raise e, c2) => Some (inl (Local e), c2)
          | (Ok _, c2) => Some (inr tweet, c2)
          end
      end
  end.

(** Every entry of the in-memory tier is stored under the id of its tweet. *)
Definition well_keyed (c : client) : Prop :=
  ∀ k tweet, tweetCache c !! k = Some tweet → id tweet = k.

(** A second version of [sample], and a tweet without conversation. *)
Definition edited : Tweet :=
  {| id := "1"; conversationId := Some "10"; userId := "u1"; username := "alice";
     name := "Alice"; text := "hello, edited"; permanentUrl := "https://t/1";
     inReplyToStatusId := None; timestamp := 100 |}.

Definition orphan : Tweet :=
  {| id := "7"; conversationId := None; userId := "u1"; username := "alice";
     name := "Alice"; text := "alone"; permanentUrl := "https://t/7";
     inReplyToStatusId := None; timestamp := 100 |}.

End Fetch.

(** ** Session set-up *)

Module Session.
Import RequestQueue.

Record TwitterCookie := {
  key : string;
  value : string;
  domain : string;
  path : string;
  secure : bool;
  httpOnly : bool;
  sameSite : option string
}.

(** The cookie array built after a login from the cookies of the
    scraper ([key] and [value] of each). *)
Definition after_login (cookies : list (string * string)) : list TwitterCookie :=
  map (fun cookie =>
         {| key := cookie.1; value := cookie.2; domain := ".twitter.com";
            path := "/"; secure := true; httpOnly := true;
            sameSite := Some "Lax" |}) cookies.

(** The content of a stored record, as [loadCookiesFromDatabase] reads
    it: [s_cookies] is [None] when [content.cookies] is not an array. *)
Record StoredContent := {
  s_type : option string;
  s_cookies : option (list TwitterCookie);
  s_text : string
}.

Record Stored := {
  s_id : string;
  s_userId : string;
  s_content : StoredContent;
  s_agentId : string;
  s_roomId : string
}.

Section Runtime.
Variable stringToUuid : string -> string.
Variable agentId : string.

(** The record [saveCookiesToDatabase(cookies)] passes to [createMemory]
    ([embedding] and [createdAt] left out). *)
Definition cookie_memory (cookies : list TwitterCookie) : Stored :=
  {| s_id := stringToUuid ("twitter-cookies-" +:+ agentId);
     s_userId := agentId;
     s_content := {| s_type := Some "twitter-cookies";
                     s_cookies := Some cookies;
                     s_text := "Twitter authentication cookies storage" |};
     s_agentId := agentId;
     s_roomId := stringToUuid ("twitter-system-" +:+ agentId) |}.

(** The room [loadCookiesFromDatabase] asks [getMemories] for. *)
Definition cookie_room : string := stringToUuid ("twitter-system-" +:+ agentId).

End Runtime.

(** The test of [find] in [loadCookiesFromDatabase]. *)
Definition holds_cookies (m : Stored) : bool :=
  bool_decide (s_type (s_content m) = Some "twitter-cookies") &&
  match s_cookies (s_content m) with
  | Some cookies => bool_decide (0 < length cookies)
  | None => false
  end.

(** [loadCookiesFromDatabase()]: [memories] is what [getMemories]
    returned; [None] is null. *)
Definition loadCookiesFromDatabase (memories : list Stored)
  : option (list TwitterCookie) :=
  match List.find holds_cookies memories with
  | Some cookieMemory => s_cookies (s_content cookieMemory)
  | None => None
  end.

(** What the initialisation does before it asks for the user id. *)
Inductive act :=
| SetCookies (cookies : list TwitterCookie)
| SaveCookies (cookies : list TwitterCookie)
| LoadCookies
| Login
| GetCookies
| WriteCookieFile
| Sleep (ms : Z)
| LogInfo (msg : string)
| LogError (msg : string)
| Emit (signal : string).

(** What the outer [catch] of the initialisation does. *)
Definition initialization_failed : list act :=
  [LogError "Error during Twitter client initialization:";
   Emit "initializationError"].

(** The inner [catch] around the login. *)
Definition login_failed : list act :=
  [LogError "Failed to login to Twitter:"; Emit "loginError"].

(** The setting TWITTER_COOKIES: not set (or empty), not valid JSON, or
    an array of cookies. *)
Inductive setting := Unset | Malformed | Inline (cookies : list TwitterCookie).

(** How a phase of the initialisation ends: it goes on, or the
    initialisation has returned. *)
Inductive phase (A : Type) := Continue (a : A) | Stopped (a : A).
Arguments Continue {A} a.
Arguments Stopped {A} a.

(** The first phase: the cookies are taken from the setting, else from
    the store, else from a login. [install], [store] and [login] tell
    whether [setCookiesFromArray], [saveCookiesToDatabase] and
    [twitterClient.login] return (rather than throw); [scraped] is what
    [twitterClient.getCookies] returns ([None]: it throws); [saved] is
    what [loadCookiesFromDatabase] returned. *)
Definition install_credentials (inline : setting)
    (saved : option (list TwitterCookie)) (install store login : bool)
    (scraped : option (list (string * string))) : phase (list act) :=
  match inline with
  | Malformed => Stopped initialization_failed
  | Inline cookiesArray =>
      if negb install then Stopped (SetCookies cookiesArray :: initialization_failed)
      else if negb store
           then Stopped ([SetCookies cookiesArray; SaveCookies cookiesArray] ++
                         initialization_failed)
           else Continue [SetCookies cookiesArray; SaveCookies cookiesArray]
  | Unset =>
      match saved with
      | Some savedCookies =>
          if negb install
          then Stopped ([LoadCookies; SetCookies savedCookies] ++ initialization_failed)
          else Continue [LoadCookies; SetCookies savedCookies]
      | None =>
          if negb login then Stopped ([LoadCookies; Login] ++ login_failed)
          else
            match scraped with
            | None =>
                Stopped ([LoadCookies; Login; LogInfo "Logged in to Twitter";
                          GetCookies] ++ login_failed)
            | Some cookies =>
                let cookiesArray := after_login cookies in
                let done := [LoadCookies; Login; LogInfo "Logged in to Twitter";
                             GetCookies; SaveCookies cookiesArray] in
                if negb store then Stopped (done ++ login_failed)
                else Continue done
            end
      end
  end.

(** The loop [while (!(await this.twitterClient.isLoggedIn()))]:
    [polls] are the answers of [isLoggedIn] so far, [relogin k] tells
    whether the [k]-th forced login returns (the reading of the cookies
    and the writing of the cookie file after it are taken to return).
    The result: the loop has
    ended, it awaits the next answer (with this value of
    [loggedInWaits]), or the forced login threw. *)
Inductive waiting :=
| LoggedIn (acts : list act)
| Polling (acts : list act) (loggedInWaits : nat)
| LoginThrew (acts : list act).

Definition after (acts : list act) (w : waiting) : waiting :=
  match w with
  | LoggedIn rest => LoggedIn (acts ++ rest)
  | Polling rest n => Polling (acts ++ rest) n
  | LoginThrew rest => LoginThrew (acts ++ rest)
  end.

Fixpoint wait_for_login (polls : list bool) (relogin : nat -> bool)
    (loggedInWaits logins : nat) : waiting :=
  match polls with
  | [] => Polling [] loggedInWaits
  | true :: _ => LoggedIn []
  | false :: rest =>
      let waited := [LogInfo "Waiting for Twitter login"; Sleep 2000] in
      if 10 <? loggedInWaits then
        if relogin logins then
          after (waited ++ [LogError "Failed to login to Twitter"; Login;
                            GetCookies; WriteCookieFile])
            (wait_for_login rest relogin (0 + 1) (S logins))
        else LoginThrew (waited ++ [LogError "Failed to login to Twitter"; Login] ++
                         initialization_failed)
      else after waited (wait_for_login rest relogin (loggedInWaits + 1) logins)
  end.

Definition acts_of (w : waiting) : list act :=
  match w with
  | LoggedIn acts | Polling acts _ | LoginThrew acts => acts
  end.

(** The logins among the actions. *)
Definition is_login (a : act) : bool :=
  match a with
  | Login => true
  | _ => false
  end.

Definition logins_in (acts : list act) : nat :=
  length (filter (fun a => is_login a = true) acts).

Definition first_phase_acts (p : phase (list act)) : list act :=
  match p with
  | Continue acts | Stopped acts => acts
  end.

(** Neither the setting nor the store holds cookies. *)
Definition no_cookies (inline : setting) (saved : option (list TwitterCookie)) : bool :=
  match inline, saved with
  | Unset, None => true
  | _, _ => false
  end.

End Session.

(** ** Passes of the timeline population *)

Module Backfill.
Import Reconcile.

(** A new store: no record, no snapshot. *)
Definition blank : world :=
  {| memories := []; timeline_cache := None; connections := []; users := [];
     creates := [] |}.

End Backfill.

(** ** Strings *)

Module Text.

(** The comma (code 44). *)
Definition comma : Ascii.ascii := Ascii.ascii_of_nat 44.

(** [s.split(sep)] for a separator of one character. *)
Fixpoint split (sep : Ascii.ascii) (s : string) : list string :=
  match s with
  | EmptyString => [EmptyString]
  | String ch rest =>
      if Ascii.eqb ch sep then EmptyString :: split sep rest
      else
        match split sep rest with
        | first :: others => String ch first :: others
        | [] => [String ch EmptyString]
        end
  end.

End Text.

(** ** Logger *)

Module Logger.
Import Utf16.

(** [frameMessage(message, title)]; [title] is [None] when it is null or
    undefined; [None] as a result is the RangeError of [repeat]. *)
Definition frameMessage (message : jstring) (title : option jstring)
  : option jstring :=
  let frameChar := lit "*" in
  let lines := split line_feed message in
  let frameHorizontalLength := 30%Z in
  let shown := default (lit "log") title in
  frame ← repeat frameChar (frameHorizontalLength + 4);
  padding ← repeat (lit " ") (frameHorizontalLength - Z.of_nat (length shown) + 1);
  let topFrame :=
    frame ++ lit " " ++ frameChar ++ lit " " ++ shown ++ padding ++ frame in
  let bottomFrame := frame in
  Some (join newline ([topFrame] ++ lines ++ [bottomFrame])).

(** [logger.log(...args)] of string arguments, in the console
    configuration (the default): nothing for no argument; otherwise the
    arguments joined by spaces, in the colour the last argument names,
    white if it names none. The result is the colour and the text handed
    to [console.log]. *)
Definition colours : list jstring :=
  [lit "red"; lit "blue"; lit "green"; lit "yellow"; lit "white"].

Definition log (args : list jstring) : option (jstring * jstring) :=
  match last args with
  | None => None
  | Some final =>
      let message := join (lit " ") args in
      let color := if decide (final ∈ colours) then final else lit "white" in
      Some (color, message)
  end.

(** The path [log_to_file] appends to; [joined] is
    [path.join(logDirectory, filename)]. *)
Definition log_path (joined : jstring) : jstring :=
  if negb (endsWith joined (lit ".log")) && negb (endsWith joined (lit ".txt"))
  then joined ++ lit ".log"
  else joined.

(** The preview of the message printed to the console. *)
Definition preview (message : jstring) : jstring :=
  if 200 <? length message
  then take 200 message ++ lit "..."
  else message.

(** [log_to_file(filename, message, logDirectory)]: what the call
    returns or throws, with what it hands to the logger, and the text
    files after it. [dir_exists] is [fs.existsSync(logDirectory)];
    [mkdir] and [append] are the errors [fs.mkdirSync] and
    [fs.appendFileSync] throw ([None]: they return); [timestamp] is
    [new Date().toUTCString()]. *)
Definition log_to_file (filename message joined timestamp : jstring)
    (dir_exists : bool) (mkdir append : option string)
    (files : gmap jstring jstring)
  : result (option (jstring * jstring)) * gmap jstring jstring :=
  match (if dir_exists then None else mkdir) with
  | Some e => (Raise (IOError e), files)
  | None =>
      let fullPath := log_path joined in
      let logEntry := lit "[" ++ timestamp ++ lit "] " ++ message ++ newline in
      match append with
      | Some e => (Raise (IOError e), files)
      | None =>
          let shown := preview message in
          (Ok (log [lit "Logged to " ++ filename ++ lit ": " ++ shown; filename]),
           <[fullPath := default [] (files !! fullPath) ++ logEntry]> files)
      end
  end.

End Logger.

(** ** Command line *)

Module Cli.
Import Text.

Section Characters.

(** The characters, and [String.prototype.trim]. *)
Variable Character : Type.
Variable trim : string -> string.

(** [loadCharacters(charactersArg)]: [apiKey] is the environment
    variable CHARACTERS_API_KEY, [fetchCharacter i id apiKey] what the
    [i]-th call of [fetchCharacter] returned ([None]: null). *)
Definition loadCharacters (apiKey : option string) (charactersArg : option string)
    (fetchCharacter : nat -> string -> string -> option Character)
    (defaultCharacter : Character) : list Character :=
  match apiKey with
  | None => [defaultCharacter]
  | Some apiKey =>
      if decide (apiKey = EmptyString) then [defaultCharacter]
      else
        let characterIds :=
          match charactersArg with
          | Some arg => map trim (split comma arg)
          | None => []
          end in
        let loadedCharacters :=
          if 0 <? length characterIds
          then omap (fun x => x) (imap (fun i id => fetchCharacter i id apiKey) characterIds)
          else [] in
        if length loadedCharacters =? 0 then loadedCharacters ++ [defaultCharacter]
        else loadedCharacters
  end.

End Characters.

(** The clients [initializeClients] can start. *)
Inductive client :=
| Discord | Telegram | TwitterInteraction | TwitterSearch | TwitterGeneration.

Section Clients.

(** [String.prototype.toLowerCase]. *)
Variable toLowerCase : string -> string.


End Clients.

(** [startAgent(character)] of the server: [running] is the map
    [runningAgents] (here: from character id to the clients), [start] is
    how the creation of the runtime and of the clients ends. The result
    is what the call returns or throws, and the map after it. *)
Definition startAgent (running : gmap string (list client)) (characterId : string)
    (start : string + list client)
  : (string + list client) * gmap string (list client) :=
  match running !! characterId with
  | Some clients => (inr clients, running)
  | None =>
      match start with
      | inl e => (inl e, running)
      | inr clients => (inr clients, <[characterId := clients]> running)
      end
  end.

End Cli.

(** * Properties *)

(** ** Lists *)

Lemma filter_none {A} (P : A → Prop) `{∀ x, Decision (P x)} (l : list A) :
  (∀ x, x ∈ l → ¬ P x) → filter P l = [].
Proof.
  induction l as [|x l IH]; intros Hl; [done|].
  rewrite filter_cons_False by (apply Hl; left).
  apply IH. intros y Hy. apply Hl. by right.
Qed.

(** ** The request queue *)

Section QueueFacts.
Import RequestQueue.
Context {V : Type}.
Implicit Types (s : state V) (req r : request V) (reqs done rest : list (request V)).
Implicit Types (tr p : list (event V)) (sched : list (input V)).

Lemma served_app t done rest :
  served t (done ++ rest) = served t done ++ served (t + length done) rest.
Proof.
  revert t; induction done as [|r done IH]; intros t; simpl.
  - by rewrite Nat.add_0_r.
  - rewrite IH. by replace (S t + length done) with (t + S (length done)) by lia.
Qed.

Lemma wrappers_app t done rest :
  wrappers t (done ++ rest) = wrappers t done ++ wrappers (t + length done) rest.
Proof.
  revert t; induction done as [|r done IH]; intros t; simpl.
  - by rewrite Nat.add_0_r.
  - rewrite IH. by replace (S t + length done) with (t + S (length done)) by lia.
Qed.

Lemma wrapper_settle t req (h : heap V) :
  invocations h !! t = None →
  settle (wrapper t req) h =
    (Normal, {| invocations := <[t := 1]> (invocations h);
                trace := trace h ++ [verdict t req] |}).
Proof.
  intros Hnone. unfold wrapper, verdict; simpl. rewrite Hnone; simpl.
  by destruct (req 0).
Qed.

(** The closure [add] pushes never ends abruptly, whatever the operation does. *)
Lemma wrapper_never_abrupt t req (h : heap V) : (settle (wrapper t req) h).1 = Normal.
Proof. unfold wrapper; simpl. by destruct (req _). Qed.

Lemma init_consistent : consistent [] (@init V).
Proof.
  exists Idle, [], []. split; [done|]. repeat split; try done.
Qed.

Lemma submit_consistent ph done rest s req :
  at_phase ph done rest s →
  ∃ ph', at_phase ph' done (rest ++ [req]) (step s (Submit req)).
Proof.
  destruct s as [q b w n h]. intros (Hn & Hinv & Hph). simpl in *.
  destruct ph; simpl in Hph.
  - destruct Hph as (-> & -> & -> & -> & Htr). exists Running.
    unfold add, processQueue; simpl.
    split; [simpl in *; lia|]. split; [done|].
    exists req, []. simpl in *. rewrite Nat.add_0_r in Hn. subst n.
    repeat split; try done. unfold emit; simpl. by rewrite Htr.
  - destruct Hph as (r & rest' & -> & -> & -> & -> & Htr). exists Running.
    unfold add, processQueue; simpl.
    split; [simpl in *; rewrite ?length_app; simpl; lia|]. split; [done|].
    exists r, (rest' ++ [req]). repeat split; try done.
    rewrite wrappers_app. simpl in *. do 3 f_equal. lia.
  - destruct Hph as (-> & -> & -> & Htr). exists Pacing.
    unfold add, processQueue; simpl.
    split; [simpl in *; rewrite ?length_app; simpl; lia|]. split; [done|].
    repeat split; try done.
    rewrite wrappers_app. simpl. do 3 f_equal. lia.
Qed.

Lemma step_wake s c :
  workers s = [c] →
  step s (Wake 0) =
    match resume c s with
    | (s', Some c'') => set_workers (<[0 := c'']> (workers s')) s'
    | (s', None) => set_workers (delete 0 (workers s')) s'
    end.
Proof. intros Hw. unfold step. by rewrite Hw. Qed.

Lemma wake_running done r rest s :
  at_phase Running done (r :: rest) s →
  at_phase Pacing (done ++ [r]) rest (step s (Wake 0)).
Proof.
  destruct s as [q b w n h]. intros (Hn & Hinv & Hph). simpl in Hn, Hinv, Hph.
  destruct Hph as (r' & rest' & [= <- <-] & -> & -> & -> & Htr).
  rewrite (step_wake _ (AwaitRequest (wrapper (length done) r))) by done.
  unfold resume. cbn [mem]. rewrite wrapper_settle by (apply Hinv; lia). cbn.
  split; [rewrite length_app; simpl; lia|]. split.
  - intros t Ht. rewrite length_app in Ht; simpl in Ht. simpl.
    rewrite lookup_insert_ne by lia. apply Hinv. lia.
  - simpl. repeat split; try done.
    + rewrite length_app; simpl.
      by replace (length done + 1) with (S (length done)) by lia.
    + rewrite Htr, served_app; simpl. by rewrite <- !app_assoc.
Qed.

Lemma wake_pacing_nil done s :
  at_phase Pacing done [] s → at_phase Idle done [] (step s (Wake 0)).
Proof.
  destruct s as [q b w n h]. intros (Hn & Hinv & Hb & Hw & Hq & Htr).
  simpl in Hn, Hinv, Hb, Hw, Hq, Htr. subst.
  rewrite (step_wake _ AwaitDelay) by done.
  by repeat split.
Qed.

Lemma wake_pacing_cons done r rest s :
  at_phase Pacing done (r :: rest) s →
  at_phase Running done (r :: rest) (step s (Wake 0)).
Proof.
  destruct s as [q b w n h]. intros (Hn & Hinv & Hb & Hw & Hq & Htr).
  simpl in Hn, Hinv, Hb, Hw, Hq, Htr. subst.
  rewrite (step_wake _ AwaitDelay) by done.
  split; [done|]. split; [done|].
  exists r, rest. repeat split; try done. simpl. unfold emit. simpl.
  by rewrite Htr.
Qed.

Lemma wake_other ph done rest s i :
  at_phase ph done rest s → i ≠ 0 → step s (Wake i) = s.
Proof.
  intros (_ & _ & Hph) Hi. simpl.
  assert (workers s !! i = None) as ->; [|done].
  destruct i as [|i]; [done|].
  destruct ph; simpl in Hph.
  - by destruct Hph as (_ & _ & -> & _).
  - by destruct Hph as (? & ? & _ & _ & -> & _).
  - by destruct Hph as (_ & -> & _).
Qed.

Lemma wake_idle done rest s i : at_phase Idle done rest s → step s (Wake i) = s.
Proof. intros (_ & _ & _ & _ & Hw & _). simpl. by rewrite Hw. Qed.

Lemma step_consistent reqs s a :
  consistent reqs s → consistent (reqs ++ submitted [a]) (step s a).
Proof.
  intros (ph & done & rest & -> & Hph). destruct a as [req|i].
  - change (submitted [Submit req]) with [req].
    destruct (submit_consistent _ _ _ _ req Hph) as (ph' & Hph').
    exists ph', done, (rest ++ [req]). by rewrite app_assoc.
  - change (submitted [Wake i]) with (@nil (request V)). rewrite app_nil_r.
    destruct (decide (i = 0)) as [->|Hi].
    + destruct ph.
      * exists Idle, done, rest. split; [done|]. by erewrite wake_idle.
      * destruct Hph as (Hn & Hinv & r & rest' & -> & Hrest).
        exists Pacing, (done ++ [r]), rest'. split; [by rewrite <- app_assoc|].
        apply wake_running. split; [done|]. split; [done|]. by exists r, rest'.
      * destruct rest as [|r rest].
        -- exists Idle, done, []. split; [done|]. by apply wake_pacing_nil.
        -- exists Running, done, (r :: rest). split; [done|].
           by apply wake_pacing_cons.
    + exists ph, done, rest. split; [done|]. by erewrite wake_other.
Qed.

Lemma submitted_app sched sched' :
  submitted (sched ++ sched') = submitted sched ++ submitted sched'.
Proof. apply omap_app. Qed.

Lemma run_consistent reqs s sched :
  consistent reqs s → consistent (reqs ++ submitted sched) (run s sched).
Proof.
  revert reqs s; induction sched as [|a sched IH]; intros reqs s Hs.
  - simpl. by rewrite app_nil_r.
  - change (run s (a :: sched)) with (run (step s a) sched).
    change (a :: sched) with ([a] ++ sched).
    rewrite submitted_app, app_assoc. apply IH. by apply step_consistent.
Qed.

(** Every reachable state of the queue has one of the three shapes, for
    the operations submitted so far. *)
Lemma reachable_consistent sched : consistent (submitted sched) (run init sched).
Proof. apply (run_consistent [] init sched), init_consistent. Qed.

(** *** What reachable traces look like *)

Lemma in_flight_served t done p (tail : list (event V)) :
  tail = [] ∨ (∃ j, tail = [Started j]) →
  p `prefix_of` served t done ++ tail →
  length (in_flight p) ≤ 1.
Proof.
  intros Htail. revert t p; induction done as [|r done IH]; intros t p Hp.
  - simpl in Hp. destruct Htail as [->|[j ->]].
    + apply prefix_nil_inv in Hp as ->. simpl; lia.
    + destruct p as [|e p]; [simpl; lia|].
      pose proof (prefix_cons_inv_1 _ _ _ _ Hp) as ->.
      apply prefix_cons_inv_2, prefix_nil_inv in Hp as ->. simpl; lia.
  - simpl in Hp.
    destruct p as [|e1 p]; [simpl; lia|].
    pose proof (prefix_cons_inv_1 _ _ _ _ Hp) as ->.
    apply prefix_cons_inv_2 in Hp.
    destruct p as [|e2 p]; [simpl; lia|].
    pose proof (prefix_cons_inv_1 _ _ _ _ Hp) as ->.
    apply prefix_cons_inv_2 in Hp.
    assert (track [t] (verdict t r) = []) as Hv.
    { unfold verdict. destruct (r 0); simpl; by rewrite filter_cons_False by naive_solver. }
    destruct p as [|e3 p]; [unfold in_flight; simpl; rewrite Hv; simpl; lia|].
    pose proof (prefix_cons_inv_1 _ _ _ _ Hp) as ->.
    apply prefix_cons_inv_2 in Hp.
    unfold in_flight. simpl. rewrite Hv. simpl. by apply (IH (S t)).
Qed.

Lemma started_served t done : started (served t done) = seq t (length done).
Proof.
  revert t; induction done as [|r done IH]; intros t; [done|].
  simpl. unfold started in *. simpl. rewrite IH.
  unfold verdict. by destruct (r 0).
Qed.

Lemma settlements_served t done : settlements (served t done) = results t done.
Proof.
  revert t; induction done as [|r done IH]; intros t; [done|].
  simpl. unfold settlements in *. simpl. rewrite IH.
  unfold verdict. by destruct (r 0).
Qed.

Lemma backoffs_served t done : backoffs (served t done) = [].
Proof.
  revert t; induction done as [|r done IH]; intros t; [done|].
  simpl. unfold backoffs in *. simpl. rewrite IH.
  unfold verdict. by destruct (r 0).
Qed.

(** The trace of a reachable state: the operations served so far, each
    called once and settled, then possibly the call of the next one. *)
Lemma reachable_trace reqs s :
  consistent reqs s →
  ∃ done rest tail,
    reqs = done ++ rest ∧
    next_ticket s = length reqs ∧
    trace (mem s) = served 0 done ++ tail ∧
    (tail = [] ∨ tail = [Started (length done)] ∧ rest ≠ []) ∧
    (workers s = [] → rest = [] ∧ tail = []) ∧
    length (workers s) ≤ 1.
Proof.
  intros (ph & done & rest & -> & Hn & _ & Hph).
  exists done, rest. destruct ph; simpl in Hph.
  - destruct Hph as (-> & _ & Hw & _ & Htr). exists [].
    rewrite Hw, Htr, Hn, length_app, !app_nil_r. simpl.
    split_and!; auto.
  - destruct Hph as (r & rest' & -> & _ & Hw & _ & Htr).
    exists [Started (length done)]. rewrite Hw, Htr, Hn, length_app. simpl.
    split_and!; auto; done.
  - destruct Hph as (_ & Hw & _ & Htr). exists [].
    rewrite Hw, Htr, Hn, length_app, !app_nil_r. simpl.
    split_and!; auto; done.
Qed.

(** *** The queue drains *)

Lemma run_app s sched sched' : run s (sched ++ sched') = run (run s sched) sched'.
Proof. apply foldl_app. Qed.

Lemma drain_pacing done rest s :
  at_phase Pacing done rest s →
  ∃ n, at_phase Idle (done ++ rest) [] (run s (replicate n (Wake 0))).
Proof.
  revert done s; induction rest as [|r rest IH]; intros done s Hs.
  - exists 1. rewrite app_nil_r. by apply wake_pacing_nil.
  - apply wake_pacing_cons, wake_running, IH in Hs as [n Hn].
    exists (S (S n)). by rewrite <- app_assoc in Hn.
Qed.

Lemma drain reqs s :
  consistent reqs s →
  ∃ n, at_phase Idle reqs [] (run s (replicate n (Wake 0))).
Proof.
  intros (ph & done & rest & -> & Hph). destruct ph.
  - exists 0. simpl. destruct Hph as (? & ? & -> & ? & ? & ? & ?).
    rewrite app_nil_r. by split_and!.
  - destruct Hph as (Hn & Hinv & r & rest' & -> & Hrest).
    assert (at_phase Running done (r :: rest') s) as Hs
      by (split; [done|]; split; [done|]; by exists r, rest').
    apply wake_running, drain_pacing in Hs as [n Hn'].
    exists (S n). by rewrite <- app_assoc in Hn'.
  - by apply drain_pacing.
Qed.

(** *** The promise [add] returns *)

Lemma head_results t t0 reqs :
  head (filter (fun x => x.1 = t) (results t0 reqs)) =
    if decide (t0 ≤ t) then (fun r : request V => (t, r 0)) <$> reqs !! (t - t0)
    else None.
Proof.
  revert t0; induction reqs as [|r reqs IH]; intros t0; simpl.
  - by case_decide.
  - rewrite filter_cons. simpl. destruct (decide (t0 = t)) as [->|Hne].
    + rewrite decide_True by lia. by rewrite Nat.sub_diag.
    + rewrite IH. destruct (decide (t0 ≤ t)).
      * rewrite decide_True by lia.
        by replace (t - t0) with (S (t - S t0)) by lia.
      * by rewrite decide_False by lia.
Qed.

Lemma promise_reachable reqs s t :
  consistent reqs s →
  promise t (trace (mem s)) = None ∨
  ∃ r, reqs !! t = Some r ∧ promise t (trace (mem s)) = Some (r 0).
Proof.
  intros Hs. apply reachable_trace in Hs
    as (done & rest & tail & -> & _ & Htr & Htail & _).
  assert (settlements (trace (mem s)) = results 0 done) as Hset.
  { rewrite Htr. unfold settlements. rewrite omap_app.
    fold (settlements (served 0 done)). rewrite settlements_served.
    destruct Htail as [->|[-> _]]; simpl; by rewrite app_nil_r. }
  unfold promise. rewrite Hset, head_results, decide_True, Nat.sub_0_r by lia.
  destruct (done !! t) as [r|] eqn:Hr; simpl; [right|by left].
  exists r. split; [|done]. by apply lookup_app_l_Some.
Qed.

Lemma promise_idle reqs s t r :
  at_phase Idle reqs [] s → reqs !! t = Some r →
  promise t (trace (mem s)) = Some (r 0).
Proof.
  intros (_ & _ & _ & _ & _ & _ & Htr) Hr. unfold promise.
  rewrite Htr, settlements_served, head_results, decide_True, Nat.sub_0_r by lia.
  by rewrite Hr.
Qed.

Lemma add_consistent reqs s req :
  consistent reqs s → consistent (reqs ++ [req]) (add req s).
Proof. intros Hs. by apply (step_consistent _ _ (Submit req)) in Hs. Qed.

Lemma consistent_next_ticket reqs s : consistent reqs s → next_ticket s = length reqs.
Proof. intros (ph & done & rest & -> & Hn & _). by rewrite length_app. Qed.

(** Awaiting [add(req)]: the promise settles with the outcome of the
    first execution of [req], and with nothing else; and it does settle
    once what the queue awaits has settled often enough. *)
Lemma await_add_first_outcome reqs s req sched :
  consistent reqs s →
  Await.await_add s req sched = None ∨ Await.await_add s req sched = Some (req 0).
Proof.
  intros Hs. unfold Await.await_add.
  rewrite (consistent_next_ticket _ _ Hs).
  apply add_consistent with (req := req), run_consistent with (sched := sched) in Hs.
  destruct (promise_reachable _ _ (length reqs) Hs) as [?|(r & Hr & ->)]; [by left|].
  right. rewrite <- app_assoc in Hr. rewrite lookup_app_r in Hr by lia.
  rewrite Nat.sub_diag in Hr. by injection Hr as ->.
Qed.

Lemma await_add_settles reqs s req sched :
  consistent reqs s →
  ∃ n, Await.await_add s req (sched ++ replicate n (Wake 0)) = Some (req 0).
Proof.
  intros Hs. unfold Await.await_add.
  rewrite (consistent_next_ticket _ _ Hs).
  apply add_consistent with (req := req), run_consistent with (sched := sched) in Hs.
  destruct (drain _ _ Hs) as [n Hn]. exists n. rewrite run_app.
  apply (promise_idle _ _ _ _ Hn).
  rewrite <- app_assoc, lookup_app_r by lia. by rewrite Nat.sub_diag.
Qed.

Lemma reachable_started reqs s :
  consistent reqs s →
  ∃ k, k ≤ length reqs ∧ started (trace (mem s)) = seq 0 k.
Proof.
  intros Hs. apply reachable_trace in Hs
    as (done & rest & tail & -> & _ & -> & Htail & _).
  unfold started. rewrite omap_app. fold (started (served 0 done)).
  rewrite started_served, length_app.
  destruct Htail as [->|[-> Hrest]]; simpl.
  - exists (length done). rewrite app_nil_r. split; [lia|done].
  - exists (S (length done)). rewrite seq_S. split; [|done].
    destruct rest; [done|simpl; lia].
Qed.

Lemma reachable_backoffs reqs s : consistent reqs s → backoffs (trace (mem s)) = [].
Proof.
  intros Hs. apply reachable_trace in Hs
    as (done & rest & tail & -> & _ & -> & Htail & _).
  unfold backoffs. rewrite omap_app. fold (backoffs (served 0 done)).
  rewrite backoffs_served. by destruct Htail as [->|[-> _]].
Qed.

Lemma filter_eq_NoDup (t : nat) (l : list nat) :
  NoDup l → length (filter (fun u => u = t) l) ≤ 1.
Proof.
  induction 1 as [|x l Hx Hl IH]; [simpl; lia|].
  rewrite filter_cons. case_decide as Hxt; [|done].
  subst x. simpl.
  assert (filter (fun u => u = t) l = []) as ->; [|simpl; lia].
  apply filter_none. intros u Hu ->. contradiction.
Qed.

(** The backoff is [2^n * 1000] ms up to [n = 21]. *)
Lemma exponentialBackoff_small (n : nat) :
  n ≤ 21 → exponentialBackoff n = (2 ^ Z.of_nat n * 1000)%Z.
Proof.
  intros Hn. unfold exponentialBackoff. cbv zeta.
  assert (2 ^ Z.of_nat n ≤ 2 ^ 21)%Z as Hpow
    by (apply Z.pow_le_mono_r; lia).
  change (2 ^ 21)%Z with 2097152%Z in Hpow.
  destruct (Z.ltb_spec 2147483647 (2 ^ Z.of_nat n * 1000)); [lia|done].
Qed.

(** What [processQueue] does with a closure that ends abruptly: it is
    put back at the front of the queue and the worker sleeps
    [2^n * 1000] ms, [n] being the length of the queue with the closure
    back in it (for [n] up to 21; the timer takes 1 ms beyond). *)
Lemma resume_abrupt s (r : thunk V) e h :
  settle r (mem s) = (Abrupt e, h) →
  ∃ s', resume (AwaitRequest r) s = (s', Some AwaitBackoff) ∧
        queue s' = r :: queue s ∧
        trace (mem s') =
          trace h ++ [LoggedError e;
                      Backoff (exponentialBackoff (S (length (queue s))))] ∧
        (length (queue s) < 21 →
         exponentialBackoff (S (length (queue s))) =
           (2 ^ Z.of_nat (S (length (queue s))) * 1000)%Z).
Proof.
  intros Hr. unfold resume. rewrite Hr. eexists; split; [done|].
  split; [done|]. split.
  - cbn [mem set_mem set_queue trace emit queue length]. simpl.
    by rewrite <- app_assoc.
  - intros Hn. apply exponentialBackoff_small. lia.
Qed.

(** C4: the queue runs at most one operation at a time (one worker, and
    in every prefix of the trace at most one operation called and not
    yet settled); the operations are called once each, in the order of
    their submission, and their outcomes are delivered in this order;
    and nothing submitted is skipped, whatever the operations before it
    did: once the queue is at rest it has served everything submitted,
    and it comes to rest after finitely many wake-ups. *)
Theorem queue_serial_fifo sched :
  let s := run init sched in
  let tr := trace (mem s) in
  length (workers s) ≤ 1 ∧
  (∀ p, p `prefix_of` tr → length (in_flight p) ≤ 1) ∧
  (∃ done k,
     done `prefix_of` submitted sched ∧
     settlements tr = results 0 done ∧
     started tr = seq 0 k ∧
     length done ≤ k ≤ length (submitted sched)) ∧
  (workers s = [] → tr = served 0 (submitted sched)) ∧
  (∃ n, let s' := run init (sched ++ replicate n (Wake 0)) in
        workers s' = [] ∧ trace (mem s') = served 0 (submitted sched)).
Proof.
  intros s tr. pose proof (reachable_consistent sched) as Hs.
  fold s in Hs. split_and!.
  - by apply reachable_trace in Hs as (? & ? & ? & _ & _ & _ & _ & _ & ?).
  - apply reachable_trace in Hs as (done & rest & tail & _ & _ & Htr & Htail & _).
    intros p Hp. apply (in_flight_served 0 done p tail).
    + destruct Htail as [->|[-> _]]; eauto.
    + by rewrite <- Htr.
  - destruct (reachable_trace _ _ Hs)
      as (done & rest & tail & Hreqs & _ & Htr & Htail & _).
    exists done, (length (started tr)).
    destruct (reachable_started _ _ Hs) as (k & Hk & Hst).
    fold tr in Hst. split_and!.
    + rewrite Hreqs. by apply prefix_app_r.
    + subst tr. rewrite Htr. unfold settlements. rewrite omap_app.
      fold (settlements (served 0 done)). rewrite settlements_served.
      destruct Htail as [->|[-> _]]; simpl; by rewrite app_nil_r.
    + by rewrite Hst, length_seq.
    + subst tr. rewrite Htr. unfold started. rewrite omap_app, length_app.
      fold (started (served 0 done)). rewrite started_served, length_seq. lia.
    + by rewrite Hst, length_seq.
  - intros Hw.
    apply reachable_trace in Hs as (done & rest & tail & Hreqs & _ & Htr & _ & Hrest & _).
    destruct (Hrest Hw) as [-> ->]. subst tr.
    by rewrite Htr, Hreqs, !app_nil_r.
  - destruct (drain _ _ Hs) as [n Hn]. exists n. simpl. rewrite run_app.
    by destruct Hn as (_ & _ & _ & _ & ? & _ & ?).
Qed.

End QueueFacts.

(** C1: an operation whose first execution throws is not executed
    again: the promise [add] returned is rejected with the error of this
    first execution (it is never resolved), the operation is called at
    most once, and the queue never sleeps in [exponentialBackoff]. *)
Theorem failed_operation_is_rejected_not_retried {V : Type}
    (sched : list (RequestQueue.input V)) (t : nat)
    (r : RequestQueue.request V) (e : string) :
  RequestQueue.submitted sched !! t = Some r →
  r 0 = RequestQueue.Throws e →
  let tr := RequestQueue.trace (RequestQueue.mem (RequestQueue.run RequestQueue.init sched)) in
  (RequestQueue.promise t tr = None ∨
   RequestQueue.promise t tr = Some (RequestQueue.Throws e)) ∧
  length (filter (fun u => u = t) (RequestQueue.started tr)) ≤ 1 ∧
  RequestQueue.backoffs tr = [] ∧
  (∃ n, RequestQueue.promise t
          (RequestQueue.trace (RequestQueue.mem
             (RequestQueue.run RequestQueue.init
                (sched ++ replicate n (RequestQueue.Wake 0))))) =
        Some (RequestQueue.Throws e)).
Proof.
  intros Hr He tr. pose proof (reachable_consistent sched) as Hs. split_and!.
  - destruct (promise_reachable _ _ t Hs) as [?|(r' & Hr' & Hp)]; [by left|].
    right. subst tr. rewrite Hp. rewrite Hr in Hr'. injection Hr' as <-.
    by rewrite He.
  - destruct (reachable_started _ _ Hs) as (k & _ & Hst). subst tr.
    rewrite Hst. apply filter_eq_NoDup, NoDup_seq.
  - by apply reachable_backoffs in Hs.
  - destruct (drain _ _ Hs) as [n Hn]. exists n. rewrite run_app.
    by rewrite (promise_idle _ _ t r Hn Hr), He.
Qed.

(** Submitting A, B, C where B fails once: the order is A, B (rejected), C. *)
Lemma failed_operation_is_rejected_not_retried_witness :
  let sched := [RequestQueue.Submit RequestQueue.opA;
                RequestQueue.Submit RequestQueue.opB;
                RequestQueue.Submit RequestQueue.opC;
                RequestQueue.Wake 0; RequestQueue.Wake 0; RequestQueue.Wake 0;
                RequestQueue.Wake 0; RequestQueue.Wake 0; RequestQueue.Wake 0] in
  let tr := RequestQueue.trace (RequestQueue.mem (RequestQueue.run RequestQueue.init sched)) in
  tr = [RequestQueue.Started 0; RequestQueue.Resolved 0 "a"; RequestQueue.Paced;
        RequestQueue.Started 1; RequestQueue.Rejected 1 "boom"; RequestQueue.Paced;
        RequestQueue.Started 2; RequestQueue.Resolved 2 "c"; RequestQueue.Paced] ∧
  RequestQueue.promise 1 tr = Some (RequestQueue.Throws "boom") ∧
  ((RequestQueue.promise 1 tr = None ∨
    RequestQueue.promise 1 tr = Some (RequestQueue.Throws "boom")) ∧
   length (filter (fun u => u = 1) (RequestQueue.started tr)) ≤ 1 ∧
   RequestQueue.backoffs tr = [] ∧
   (∃ n, RequestQueue.promise 1
           (RequestQueue.trace (RequestQueue.mem
              (RequestQueue.run RequestQueue.init
                 (sched ++ replicate n (RequestQueue.Wake 0))))) =
         Some (RequestQueue.Throws "boom"))).
Proof.
  intros sched tr. split; [by vm_compute|]. split; [by vm_compute|].
  apply (failed_operation_is_rejected_not_retried sched 1 RequestQueue.opB "boom");
    reflexivity.
Defined.

(** ** The tweet cache *)

Section CacheFacts.
Import Cache.
Implicit Types (d acc segs pat p : list string) (c : client) (tweet : Tweet).

Lemma string_length_app (a b : string) :
  String.length (a +:+ b) = String.length a + String.length b.
Proof. induction a as [|ch a IH]; simpl; [done|]. by rewrite IH. Qed.

Lemma json_regular (i : string) : regular (i +:+ ".json").
Proof.
  split_and!; intros Heq; apply (f_equal String.length) in Heq;
    rewrite string_length_app in Heq; simpl in Heq; lia.
Qed.

Lemma resolve_regular acc seg segs :
  regular seg → resolve acc (seg :: segs) = resolve (seg :: acc) segs.
Proof.
  intros (H1 & H2 & H3). simpl.
  destruct (decide (seg = "..")) as [|_]; [done|].
  by destruct (decide (seg = "." ∨ seg = EmptyString)) as [[|]|_].
Qed.

Lemma resolve_clean acc d segs :
  clean d → resolve acc (d ++ segs) = resolve (reverse d ++ acc) segs.
Proof.
  revert acc; induction d as [|seg d IH]; intros acc Hd; [done|].
  apply Forall_cons in Hd as [Hseg Hd].
  rewrite <- app_comm_cons, resolve_regular, IH by done.
  by rewrite reverse_cons, <- app_assoc.
Qed.

Lemma length_resolve acc segs : length (resolve acc segs) ≤ length acc + length segs.
Proof.
  revert acc; induction segs as [|seg segs IH]; intros acc; simpl.
  - rewrite length_reverse. lia.
  - repeat case_decide.
    + etrans; [apply IH|]. destruct acc; simpl; lia.
    + etrans; [apply IH|]. lia.
    + etrans; [apply IH|]. simpl; lia.
Qed.

Lemma matches_length pat p : matches pat p = true → length pat = length p.
Proof.
  revert p; induction pat as [|a pat IH]; intros [|seg p]; simpl; try done.
  intros [_ Hm]%andb_prop. f_equal. by apply IH.
Qed.

Lemma segments_plain (s : string) : plain s = true → segments s = [s].
Proof.
  induction s as [|ch s IH]; [done|]. simpl.
  intros [Hch Hs]%andb_prop. apply negb_true_iff in Hch. rewrite Hch.
  by rewrite (IH Hs).
Qed.

Lemma plain_app (a b : string) : plain (a +:+ b) = plain a && plain b.
Proof.
  induction a as [|ch a IH]; [done|]. simpl. rewrite IH. by rewrite andb_assoc.
Qed.

Lemma plain_json (i : string) : plain i = true → plain (i +:+ ".json") = true.
Proof. intros Hi. by rewrite plain_app, Hi. Qed.

(** Where [getCachedTweet] looks: three levels below the module. *)
Lemma read_pattern_length d i :
  clean d → plain i = true →
  length (path_join d ["tweetcache"; "*"; i +:+ ".json"]) = length d + 3.
Proof.
  intros Hd Hi. unfold path_join. cbn [mbind list_bind app].
  change (segments "tweetcache") with ["tweetcache"].
  change (segments "*") with ["*"].
  rewrite (segments_plain _ (plain_json i Hi)). cbn [app].
  rewrite resolve_clean by done.
  rewrite !resolve_regular; [|apply json_regular|done|done].
  simpl. rewrite length_reverse. simpl. rewrite length_app, length_reverse.
  simpl. lia.
Qed.

(** Where [cacheTweet] writes: at most at the level of the module. *)
Lemma write_path_length d conv i :
  clean d → d ≠ [] → plain conv = true → plain i = true →
  length (path_join d ["../../../tweetcache"; conv; i +:+ ".json"]) < length d + 3.
Proof.
  intros Hd Hne Hconv Hi. unfold path_join. cbn [mbind list_bind app].
  change (segments "../../../tweetcache") with [".."; ".."; ".."; "tweetcache"].
  rewrite (segments_plain _ Hconv), (segments_plain _ (plain_json i Hi)). cbn [app].
  rewrite resolve_clean by done.
  rewrite app_nil_r.
  change (resolve (reverse d) (".." :: ".." :: ".." :: ?rest))
    with (resolve (tail (tail (tail (reverse d)))) rest).
  eapply Nat.le_lt_trans; [apply length_resolve|].
  pose proof (length_reverse d) as Hlen.
  destruct (reverse d) as [|s1 [|s2 [|s3 acc]]]; simpl in *;
    destruct d; simpl in *; try done; lia.
Qed.

Lemma cacheTweet_ok_inv d tweet c c' :
  cacheTweet d (Some tweet) c = (Ok (), c') →
  ∃ conv fs1,
    conversationId tweet = Some conv ∧
    let cacheDir :=
      path_join d ["../../../tweetcache"; conv; id tweet +:+ ".json"] in
    mkdir (path_dirname cacheDir) (disk c) = Ok fs1 ∧
    tweetCache c' = <[id tweet := tweet]> (tweetCache c) ∧
    files (disk c') = <[cacheDir := tweet]> (files (disk c)).
Proof.
  unfold cacheTweet. destruct (conversationId tweet) as [conv|]; [|done].
  destruct (mkdir _ _) as [fs1|e] eqn:Hmk; [|done].
  destruct (writeFile _ _ _) as [fs2|e] eqn:Hwr; [|done].
  intros [= <-]. exists conv, fs1. split; [done|]. simpl. split; [done|].
  split; [done|].
  unfold writeFile in Hwr. repeat case_decide; try done.
  injection Hwr as <-. simpl.
  unfold mkdir in Hmk. repeat case_decide; try done. by injection Hmk as <-.
Qed.

(** Within one process a cached tweet is found again, in the in-memory tier. *)
Lemma cacheTweet_then_get d tweet c c' :
  cacheTweet d (Some tweet) c = (Ok (), c') →
  getCachedTweet d (id tweet) c' = (Ok (Some tweet), c').
Proof.
  intros Hput.
  apply (cacheTweet_ok_inv d tweet c c') in Hput as (conv & fs1 & _ & _ & Hmem & _).
  unfold getCachedTweet. by rewrite Hmem, lookup_insert_eq.
Qed.

(** C2: [cacheTweet] writes the file under [__dirname/../../../tweetcache]
    and [getCachedTweet] looks for it under [__dirname/tweetcache]. Within
    one process the tweet is found in the in-memory tier; after a restart
    (in-memory tier cleared, the files written by [cacheTweet] intact) the
    lookup misses: it returns undefined and promotes nothing. This is so
    for every tweet whose id and conversation id hold no "/" (an id with
    "/" in it is cut into several segments by [path.join], and may lead
    anywhere). *)
Theorem cached_tweet_is_lost_by_restart d tweet c c' :
  clean d → d ≠ [] →
  plain (id tweet) = true →
  (∀ conv, conversationId tweet = Some conv → plain conv = true) →
  glob (path_join d ["tweetcache"; "*"; id tweet +:+ ".json"]) (disk c) = [] →
  cacheTweet d (Some tweet) c = (Ok (), c') →
  getCachedTweet d (id tweet) c' = (Ok (Some tweet), c') ∧
  getCachedTweet d (id tweet) (restart c') = (Ok None, restart c').
Proof.
  intros Hd Hne Hid Hplain Hglob Hput. split; [by eapply cacheTweet_then_get|].
  apply (cacheTweet_ok_inv d tweet c c') in Hput
    as (conv & fs1 & Hconv%Hplain & _ & _ & Hfiles).
  unfold getCachedTweet. simpl. rewrite lookup_empty.
  set (pat := path_join d ["tweetcache"; "*"; id tweet +:+ ".json"]) in *.
  assert (glob pat (disk c') = []) as ->; [|done].
  unfold glob. apply filter_none. intros p Hp Hm.
  apply list_elem_of_fmap in Hp as ([p' tw] & -> & Hp). simpl in Hm.
  apply elem_of_map_to_list in Hp. rewrite Hfiles in Hp.
  apply lookup_insert_Some in Hp as [[<- _]|[_ Hp]].
  - apply matches_length in Hm. subst pat.
    rewrite read_pattern_length in Hm by done.
    pose proof (write_path_length d conv (id tweet) Hd Hne Hconv Hid). lia.
  - unfold glob in Hglob.
    pose proof (filter_nil_not_elem_of _ _ p' Hglob Hm) as Hnot.
    apply Hnot, list_elem_of_fmap. exists (p', tw). split; [done|].
    by apply elem_of_map_to_list.
Qed.

(** A conversation id with "/" in it is several segments of the path:
    the file of [wandering] lands where [getCachedTweet] looks, and the
    tweet is found after a restart. *)
Lemma slash_in_conversation_id :
  let c' := (cacheTweet module_dir (Some wandering) fresh).2 in
  (fst <$> map_to_list (files (disk c'))) =
    [["app"; "core"; "src"; "clients"; "twitter"; "tweetcache"; "10"; "1.json"]] ∧
  (getCachedTweet module_dir "1" (restart c')).1 = Ok (Some wandering).
Proof. by vm_compute. Qed.

(** The tweet with id 1 of conversation 10, cached by the module in
    [/app/core/src/clients/twitter]: the file is
    [/app/core/tweetcache/10/1.json], and a lookup after a restart finds
    nothing. *)
Lemma cached_tweet_is_lost_by_restart_witness :
  let c' := (cacheTweet module_dir (Some sample) fresh).2 in
  (fst <$> map_to_list (files (disk c'))) = [["app"; "core"; "tweetcache"; "10"; "1.json"]] ∧
  getCachedTweet module_dir (id sample) c' = (Ok (Some sample), c') ∧
  getCachedTweet module_dir (id sample) (restart c') = (Ok None, restart c').
Proof.
  intros c'. split; [by vm_compute|].
  apply (cached_tweet_is_lost_by_restart module_dir sample fresh c').
  - unfold clean, module_dir. repeat constructor; by vm_compute.
  - done.
  - reflexivity.
  - intros conv [= <-]. reflexivity.
  - by vm_compute.
  - by vm_compute.
Defined.

(** C8: when the durable write fails (creating the directory or writing
    the file), [cacheTweet] raises this very error; the tweet does not
    enter the in-memory tier either. *)
Theorem cacheTweet_write_error_propagates d tweet conv c e :
  conversationId tweet = Some conv →
  (let cacheDir :=
     path_join d ["../../../tweetcache"; conv; id tweet +:+ ".json"] in
   mkdir (path_dirname cacheDir) (disk c) = Raise e ∨
   ∃ fs1, mkdir (path_dirname cacheDir) (disk c) = Ok fs1 ∧
          writeFile cacheDir tweet fs1 = Raise e) →
  (cacheTweet d (Some tweet) c).1 = Raise e ∧
  tweetCache (cacheTweet d (Some tweet) c).2 = tweetCache c.
Proof.
  intros Hconv Hfail. unfold cacheTweet. rewrite Hconv.
  destruct Hfail as [Hmk|(fs1 & Hmk & Hwr)].
  - by rewrite Hmk.
  - by rewrite Hmk, Hwr.
Qed.

Lemma cacheTweet_write_error_propagates_witness :
  (cacheTweet module_dir (Some sample) refusing).1 = Raise (IOError "EACCES") ∧
  tweetCache (cacheTweet module_dir (Some sample) refusing).2 = tweetCache refusing.
Proof.
  apply (cacheTweet_write_error_propagates module_dir sample "10" refusing
           (IOError "EACCES")).
  - reflexivity.
  - right. eexists. split; by vm_compute.
Defined.

(** C9: [cacheTweet] of an undefined (or null) tweet returns normally,
    and leaves the disk and the in-memory tier as they were. *)
Theorem cacheTweet_undefined_is_noop d c :
  (cacheTweet d None c).1 = Ok () ∧
  disk (cacheTweet d None c).2 = disk c ∧
  tweetCache (cacheTweet d None c).2 = tweetCache c.
Proof. done. Qed.

End CacheFacts.

(** ** The home timeline *)

Section TimelineFacts.
Import Timeline.

Lemma bind_ok_inv {A B} (m : result A) (k : A → result B) (y : B) :
  (x ← m; k x) = Ok y → ∃ x, m = Ok x ∧ k x = Ok y.
Proof. destruct m as [x|e]; [|done]. intros Hk. by exists x. Qed.

Lemma filter_r_spec {A} (p : A → result bool) (l kept : list A) :
  filter_r p l = Ok kept →
  kept `sublist_of` l ∧
  Forall (fun x => p x = Ok true) kept ∧
  (∀ x, x ∈ l → p x = Ok true → x ∈ kept).
Proof.
  revert kept; induction l as [|x l IH]; intros kept; simpl.
  - intros [= <-]. split_and!; [done|done|]. by intros x Hx.
  - intros (b & Hb & (kept' & Hk & Hret)%bind_ok_inv)%bind_ok_inv.
    destruct (IH kept' Hk) as (Hsub & Hall & Hin).
    injection Hret as <-. destruct b.
    + split_and!.
      * by apply sublist_skip.
      * by constructor.
      * intros y [->|Hy]%elem_of_cons Hpy; [left|right; by apply Hin].
    + split_and!.
      * by apply sublist_cons.
      * done.
      * intros y [->|Hy]%elem_of_cons Hpy; [congruence|by apply Hin].
Qed.

Lemma map_r_spec {A B} (f : A → result B) (l : list A) (out : list B) :
  map_r f l = Ok out → Forall2 (fun x y => f x = Ok y) l out.
Proof.
  revert out; induction l as [|x l IH]; intros out; simpl.
  - by intros [= <-].
  - intros (y & Hy & (ys & Hys & Hret)%bind_ok_inv)%bind_ok_inv.
    injection Hret as <-. constructor; [done|]. by apply IH.
Qed.

(** Where every flattened field is present nothing is read from the
    legacy shape, and the normaliser returns. *)
Lemma normalize_flat_total fields :
  (∀ f, nullish (assoc (flat_key f) fields) = false) →
  ∃ obj, normalize (JObj fields) = Ok obj.
Proof.
  intros Hflat. unfold normalize, prefer, coalesce. simpl.
  pose proof (Hflat FName) as H1. pose proof (Hflat FUsername) as H2.
  pose proof (Hflat FText) as H3. pose proof (Hflat FInReplyToStatusId) as H4.
  pose proof (Hflat FCreatedAt) as H5. pose proof (Hflat FUserId) as H6.
  pose proof (Hflat FConversationId) as H7. pose proof (Hflat FHashtags) as H8.
  pose proof (Hflat FMentions) as H9. pose proof (Hflat FPhotos) as H10.
  pose proof (Hflat FUrls) as H11. pose proof (Hflat FVideos) as H12.
  simpl in *. rewrite H1, H2, H3, H4, H5, H6, H7, H8, H9, H10, H11, H12. simpl.
  by eexists.
Qed.

Lemma prefer_raw k fallback fields v :
  fallback = Ok v →
  prefer k fallback (JObj fields) =
    Ok (if nullish (assoc k fields) then v else assoc k fields).
Proof. intros ->. unfold prefer, coalesce. simpl. by destruct (nullish _). Qed.

Lemma user_legacy_raw k tweet :
  is_obj (at_path ["core"; "user_results"; "result"; "legacy"] tweet) = true →
  user_legacy k tweet =
    Ok (at_path ["core"; "user_results"; "result"; "legacy"; k] tweet).
Proof.
  destruct tweet as [| | | | | |fields]; try done.
  unfold user_legacy, optional. simpl.
  destruct (assoc "core" fields) as [| | | | | |core]; try done. simpl.
  destruct (assoc "user_results" core) as [| | | | | |user_results]; try done. simpl.
  destruct (assoc "result" user_results) as [| | | | | |res]; try done. simpl.
  by destruct (assoc "legacy" res).
Qed.

Lemma legacy_raw k tweet :
  is_obj (at_path ["legacy"; "entities"] tweet) = true →
  legacy k tweet = Ok (at_path ["legacy"; k] tweet).
Proof.
  destruct tweet as [| | | | | |fields]; try done. unfold legacy, optional. simpl.
  by destruct (assoc "legacy" fields).
Qed.

Lemma legacy_entities_raw k tweet :
  is_obj (at_path ["legacy"; "entities"] tweet) = true →
  legacy_entities k tweet = Ok (at_path ["legacy"; "entities"; k] tweet).
Proof.
  destruct tweet as [| | | | | |fields]; try done.
  unfold legacy_entities, optional. simpl.
  destruct (assoc "legacy" fields) as [| | | | | |l]; try done. simpl.
  by destruct (assoc "entities" l).
Qed.

Lemma filter_kind_raw kind items :
  forallb (fun m => negb (nullish m)) items = true →
  filter_r (fun m => ty ← member "type" m; Ok (is_str kind ty)) items =
    Ok (filter (fun m => is_str kind (at_path ["type"] m) = true) items).
Proof.
  induction items as [|m items IH]; [done|]. cbn [forallb filter_r].
  intros [Hm Hitems]%andb_prop. rewrite (IH Hitems).
  assert (member "type" m = Ok (at_path ["type"] m)) as -> by (by destruct m).
  destruct (is_str kind (at_path ["type"] m)) eqn:Hkind.
  - rewrite filter_cons_True by done. revert Hkind.
    generalize (at_path ["type"] m). intros ty Hkind. simpl. by rewrite Hkind.
  - rewrite filter_cons_False by (by rewrite Hkind). revert Hkind.
    generalize (at_path ["type"] m). intros ty Hkind. simpl. by rewrite Hkind.
Qed.

Lemma legacy_media_raw kind tweet :
  carries_legacy tweet = true →
  (m ← legacy_media kind tweet; coalesce m (Ok (JArr []))) =
    Ok (media_of_kind kind (at_path ["legacy"; "entities"; "media"] tweet)).
Proof.
  unfold carries_legacy. intros [[_ Hentities]%andb_prop Hmedia]%andb_prop.
  destruct tweet as [| | | | | |fields]; try done.
  unfold legacy_media, optional, coalesce. simpl in *.
  destruct (assoc "legacy" fields) as [| | | | | |l]; try done. simpl in *.
  destruct (assoc "entities" l) as [| | | | | |entities]; try done. simpl in *.
  destruct (assoc "media" entities) as [| | | | |items|]; try done. simpl.
  by rewrite (filter_kind_raw kind items Hmedia).
Qed.

(** Where the legacy object of the tweet has no entities and the entry
    has no flattened hashtags, the normaliser does not return: it reads
    [hashtags] of the missing entities. *)
Lemma normalize_needs_entities fields l :
  nullish (assoc "hashtags" fields) = true →
  assoc "legacy" fields = JObj l →
  nullish (assoc "entities" l) = true →
  ∃ e, normalize (JObj fields) = Raise e.
Proof.
  intros Hflat Hlegacy Hentities.
  destruct (normalize (JObj fields)) as [obj|e] eqn:Hn; [|by exists e].
  exfalso. unfold normalize in Hn.
  do 8 (apply bind_ok_inv in Hn as (? & _ & Hn)).
  apply bind_ok_inv in Hn as (v & Hhashtags & _).
  unfold prefer, coalesce, legacy_entities, optional in Hhashtags.
  simpl in Hhashtags.
  rewrite Hflat, Hlegacy in Hhashtags. simpl in Hhashtags.
  by destruct (assoc "entities" l).
Qed.

(** C5: for an entry that carries the legacy shape, whatever flattened
    fields it carries besides, the normaliser returns, and each logical
    field of the result is the flattened value of the raw entry where
    there is one (not undefined, not null), whatever the legacy shape
    says, and the value of the raw legacy shape otherwise. *)
Theorem normalizer_prefers_flattened tweet :
  carries_legacy tweet = true →
  ∃ obj, normalize tweet = Ok obj ∧ ∀ f, project f obj = preferred f tweet.
Proof.
  intros Hshape. pose proof Hshape as Hparts. unfold carries_legacy in Hparts.
  apply andb_prop in Hparts as [[Huser Hentities]%andb_prop _].
  destruct tweet as [| | | | | |fields]; try done.
  unfold normalize.
  rewrite (prefer_raw "name" _ fields _ (user_legacy_raw "name" _ Huser)).
  rewrite (prefer_raw "username" _ fields _ (user_legacy_raw "screen_name" _ Huser)).
  rewrite (prefer_raw "text" _ fields _ (legacy_raw "full_text" _ Hentities)).
  rewrite (prefer_raw "inReplyToStatusId" _ fields _
             (legacy_raw "in_reply_to_status_id_str" _ Hentities)).
  rewrite (prefer_raw "createdAt" _ fields _ (legacy_raw "created_at" _ Hentities)).
  rewrite (prefer_raw "userId" _ fields _ (legacy_raw "user_id_str" _ Hentities)).
  rewrite (prefer_raw "conversationId" _ fields _
             (legacy_raw "conversation_id_str" _ Hentities)).
  rewrite (prefer_raw "hashtags" _ fields _ (legacy_entities_raw "hashtags" _ Hentities)).
  rewrite (prefer_raw "mentions" _ fields _
             (legacy_entities_raw "user_mentions" _ Hentities)).
  rewrite (prefer_raw "photos" _ fields _ (legacy_media_raw "photo" _ Hshape)).
  rewrite (prefer_raw "urls" _ fields _ (legacy_entities_raw "urls" _ Hentities)).
  rewrite (prefer_raw "videos" _ fields _ (legacy_media_raw "video" _ Hshape)).
  eexists. split; [reflexivity|]. by intros [].
Qed.

(** The candidate in both shapes: the text and the name are the
    flattened ones; the handle, the author id and the photos (flattened
    fields absent) are those of the legacy shape. *)
Lemma normalizer_prefers_flattened_witness :
  ∃ obj,
    normalize both_shapes = Ok obj ∧
    (∀ f, project f obj = preferred f both_shapes) ∧
    text obj = JStr "flattened text" ∧
    name obj = JStr "Flat Name" ∧
    username obj = JStr "legacy_handle" ∧
    userId obj = JStr "77" ∧
    photos obj = JArr [JObj [("type", JStr "photo")]].
Proof.
  destruct (normalizer_prefers_flattened both_shapes eq_refl) as (obj & Hobj & Hfields).
  exists obj. split; [exact Hobj|]. split; [exact Hfields|].
  split; [exact (Hfields FText)|]. split; [exact (Hfields FName)|].
  split; [exact (Hfields FUsername)|]. split; [exact (Hfields FUserId)|].
  exact (Hfields FPhotos).
Defined.

(** C10: what [fetchHomeTimeline] returns are the normalised entries of
    the response whose [__typename] is not "TweetWithVisibilityResults",
    in order: such entries are all kept, the others are dropped, and the
    result is never longer than the response. *)
Theorem home_timeline_drops_restricted raw out :
  fetchHomeTimeline (Ok raw) = Ok out →
  ∃ kept,
    kept `sublist_of` raw ∧
    Forall2 (fun t o => normalize t = Ok o) kept out ∧
    Forall (fun t => ∃ ty, member "__typename" t = Ok ty ∧
                           is_str "TweetWithVisibilityResults" ty = false) kept ∧
    (∀ t ty, t ∈ raw → member "__typename" t = Ok ty →
             is_str "TweetWithVisibilityResults" ty = false → t ∈ kept) ∧
    length out ≤ length raw.
Proof.
  unfold fetchHomeTimeline. simpl.
  intros (kept & (Hsub & Hvis & Hin)%filter_r_spec & Hmap%map_r_spec)%bind_ok_inv.
  exists kept. split_and!; [done|done| | |].
  - eapply Forall_impl; [exact Hvis|]. intros t Ht. unfold visible in Ht.
    apply bind_ok_inv in Ht as (ty & Hty & Hret). exists ty. split; [done|].
    injection Hret as Hret. by apply negb_true_iff.
  - intros t ty Ht Hty Hstr. apply Hin; [done|].
    unfold visible. rewrite Hty. simpl. by rewrite Hstr.
  - rewrite <- (Forall2_length _ _ _ Hmap). by apply sublist_length.
Qed.

(** A response of three entries, two of them restricted: one item comes back. *)
Lemma home_timeline_drops_restricted_witness :
  ∃ out,
    fetchHomeTimeline (Ok [restricted; both_shapes; restricted]) = Ok out ∧
    length out = 1 ∧
    ∃ kept,
      kept `sublist_of` [restricted; both_shapes; restricted] ∧
      Forall2 (fun t o => normalize t = Ok o) kept out ∧
      Forall (fun t => ∃ ty, member "__typename" t = Ok ty ∧
                             is_str "TweetWithVisibilityResults" ty = false) kept ∧
      (∀ t ty, t ∈ [restricted; both_shapes; restricted] →
               member "__typename" t = Ok ty →
               is_str "TweetWithVisibilityResults" ty = false → t ∈ kept) ∧
      length out ≤ length [restricted; both_shapes; restricted].
Proof.
  eexists. split; [by vm_compute|]. split; [done|].
  apply (home_timeline_drops_restricted [restricted; both_shapes; restricted]).
  by vm_compute.
Defined.

End TimelineFacts.

(** ** Search *)

Section SearchFacts.
Import RequestQueue Search.

(** C6: [fetchSearchTweets] never raises. Whenever it returns, it
    returns the response of the remote call if this call settled in time
    with one, and [{ tweets: [] }] if the call threw, was still pending
    when the timer fired, or settled with nothing; and it does return
    once the operations the queue awaits have settled. *)
Theorem fetchSearchTweets_never_raises
    (before after : list (input (option QueryTweetsResponse))) (r : remote) :
  let s := run init before in
  (fetchSearchTweets s after r = None ∨
   fetchSearchTweets s after r = Some (Fulfils (expected r))) ∧
  (∃ n, fetchSearchTweets s (after ++ replicate n (Wake 0)) r =
        Some (Fulfils (expected r))).
Proof.
  intros s. pose proof (reachable_consistent before) as Hs. fold s in Hs.
  assert (∀ sched, Await.await_add s (fun _ => race r) sched = Some (race r) →
                   fetchSearchTweets s sched r = Some (Fulfils (expected r))) as Hret.
  { intros sched Hq. unfold fetchSearchTweets. rewrite Hq. simpl.
    by destruct r as [[[response|]|e]|]. }
  split.
  - destruct (await_add_first_outcome _ s (fun _ => race r) after Hs) as [Hq|Hq].
    + left. unfold fetchSearchTweets. by rewrite Hq.
    + right. by apply Hret.
  - destruct (await_add_settles _ s (fun _ => race r) after Hs) as [n Hq].
    exists n. by apply Hret.
Qed.

End SearchFacts.

(** ** Bootstrap *)

Section BootstrapFacts.
Import RequestQueue Bootstrap.

(** C7: when the resolution of the user id fails (the remote call
    throws, or yields no identifier), the initialisation logs the failure
    and returns: [populateTimeline] and [onReady] are not called, and the
    remote call is not repeated. *)
Theorem bootstrap_stops_without_user_id
    (before after : list (input (option string)))
    (remote : nat → outcome (option string)) (populate ready : outcome unit) :
  no_identifier (remote 0) = true →
  let s := run init before in
  (finish_initialization s after remote populate ready = None ∨
   finish_initialization s after remote populate ready = Some (aborted (remote 0))) ∧
  (∃ n, finish_initialization s (after ++ replicate n (Wake 0)) remote populate ready =
        Some (aborted (remote 0))) ∧
  (PopulateTimeline ∉ aborted (remote 0)) ∧
  (OnReady ∉ aborted (remote 0)) ∧
  remote_calls s after remote ≤ 1.
Proof.
  intros Hfail s. pose proof (reachable_consistent before) as Hs. fold s in Hs.
  assert (∀ sched,
            Await.await_add s (user_id_request remote) sched =
              Some (user_id_request remote 0) →
            finish_initialization s sched remote populate ready =
              Some (aborted (remote 0))) as Hret.
  { intros sched Hq. unfold finish_initialization. rewrite Hq. simpl.
    unfold user_id_request, aborted. unfold no_identifier in Hfail.
    destruct (remote 0) as [userId|e]; simpl; [|done]. by rewrite Hfail. }
  split_and!.
  - destruct (await_add_first_outcome _ s (user_id_request remote) after Hs) as [Hq|Hq].
    + left. unfold finish_initialization. by rewrite Hq.
    + right. by apply Hret.
  - destruct (await_add_settles _ s (user_id_request remote) after Hs) as [n Hq].
    exists n. by apply Hret.
  - unfold aborted. destruct (remote 0);
      rewrite !not_elem_of_cons; split_and!; try done; apply not_elem_of_nil.
  - unfold aborted. destruct (remote 0);
      rewrite !not_elem_of_cons; split_and!; try done; apply not_elem_of_nil.
  - unfold remote_calls.
    apply add_consistent with (req := user_id_request remote),
          run_consistent with (sched := after) in Hs.
    destruct (reachable_started _ _ Hs) as (k & _ & ->).
    apply filter_eq_NoDup, NoDup_seq.
Qed.

(** The remote call is rate limited: two errors are logged and nothing
    else happens. *)
Lemma bootstrap_stops_without_user_id_witness :
  finish_initialization init [Wake 0] rate_limited (Fulfils ()) (Fulfils ()) =
    Some [LogError "Error getting user ID:"; LogError "Failed to get user ID"] ∧
  ((finish_initialization init [Wake 0] rate_limited (Fulfils ()) (Fulfils ()) = None ∨
    finish_initialization init [Wake 0] rate_limited (Fulfils ()) (Fulfils ()) =
      Some (aborted (rate_limited 0))) ∧
   (∃ n, finish_initialization init ([Wake 0] ++ replicate n (Wake 0))
           rate_limited (Fulfils ()) (Fulfils ()) =
         Some (aborted (rate_limited 0))) ∧
   (PopulateTimeline ∉ aborted (rate_limited 0)) ∧
   (OnReady ∉ aborted (rate_limited 0)) ∧
   remote_calls init [Wake 0] rate_limited ≤ 1).
Proof.
  split; [by vm_compute|].
  apply (bootstrap_stops_without_user_id [] [Wake 0] rate_limited
           (Fulfils ()) (Fulfils ())).
  reflexivity.
Defined.

End BootstrapFacts.

(** ** Timeline population *)

Section ReconcileFacts.
Import Reconcile.
Variable stringToUuid : string → string.
Variables agentId twitterUserId twitterUsername characterName : string.

Lemma existsb_none {A} (f : A → bool) (l : list A) :
  (∀ x, x ∈ l → f x = false) → existsb f l = false.
Proof.
  induction l as [|x l IH]; intros Hl; simpl; [done|].
  rewrite Hl by left. apply IH. intros y Hy. apply Hl. by right.
Qed.

(** The ids of the records in the store are derived keys; where no tweet
    of the snapshot has such a key as its id, the test of the snapshot
    branch fails and the snapshot is not used: [populateTimeline] does
    what it does without a snapshot. *)
Lemma snapshot_not_used mentions w snapshot :
  timeline_cache w = Some snapshot →
  (∀ tweet m, tweet ∈ snapshot → m ∈ memories w → id tweet ≠ m_id m) →
  populateTimeline stringToUuid agentId twitterUserId twitterUsername characterName
    mentions w =
  populate_from_search stringToUuid agentId twitterUserId twitterUsername characterName
    mentions w.
Proof.
  intros Hcache Hids. unfold populateTimeline. rewrite Hcache.
  rewrite existsb_none; [done|].
  intros tweet Htweet. apply bool_decide_eq_false.
  intros (m & Hid & Hm)%list_elem_of_fmap.
  unfold getMemoriesByRoomIds in Hm. apply list_elem_of_filter in Hm as [_ Hm].
  by apply (Hids tweet m).
Qed.

End ReconcileFacts.

(** C3: the snapshot holds two tweets and the store the record of the
    first (under its derived key). [populateTimeline] compares the ids of
    the tweets with the ids of the records, finds none, and goes on with
    the search: when the search returns nothing, no record is created for
    the second tweet and the snapshot is overwritten; when the search
    returns the two tweets, [createMemory] is called for each of them,
    the first one included (the store, which ignores the creation of a
    record it holds, then holds one record for each). *)
Theorem populateTimeline_ignores_ingested_prefix :
  let run_with mentions :=
    Reconcile.populateTimeline Reconcile.tagged "agent" "me" "bot" "Bot"
      mentions Reconcile.resumed in
  Reconcile.getMemoryById (Reconcile.derived_key Reconcile.tagged "agent" Reconcile.tweet1)
    Reconcile.resumed = Some Reconcile.record1 ∧
  Reconcile.getMemoryById (Reconcile.derived_key Reconcile.tagged "agent" Reconcile.tweet2)
    Reconcile.resumed = None ∧
  Reconcile.created Reconcile.resumed (run_with []) = [] ∧
  Reconcile.timeline_cache (run_with []) = Some [] ∧
  Reconcile.created Reconcile.resumed (run_with [Reconcile.tweet1; Reconcile.tweet2]) =
    [Reconcile.derived_key Reconcile.tagged "agent" Reconcile.tweet1;
     Reconcile.derived_key Reconcile.tagged "agent" Reconcile.tweet2] ∧
  map Reconcile.m_id
    (Reconcile.memories (run_with [Reconcile.tweet1; Reconcile.tweet2])) =
    [Reconcile.derived_key Reconcile.tagged "agent" Reconcile.tweet1;
     Reconcile.derived_key Reconcile.tagged "agent" Reconcile.tweet2].
Proof. by vm_compute. Qed.

(** ** Answer extraction *)

Section ExtractFacts.
Import Utf16 Extract.

Lemma first_from_shift (pat text : jstring) (k pos : nat) :
  first_from pat text (k + pos) = (fun m => k + m) <$> first_from pat text pos.
Proof.
  revert pos; induction text as [|u text IH]; intros pos; simpl.
  - by destruct (starts_with pat []).
  - destruct (starts_with pat (u :: text)); [done|].
    by rewrite <- IH, Nat.add_succ_r.
Qed.

Lemma clamp_index (len n : nat) : n ≤ len → clamp len (Z.of_nat n) = n.
Proof.
  intros Hn. unfold clamp.
  replace (Z.of_nat n <? 0)%Z with false by (symmetry; apply Z.ltb_ge; lia).
  rewrite Nat2Z.id. lia.
Qed.

Lemma indexOf_answer (rest : jstring) :
  indexOf (lit "Answer: ") (lit "Answer: " ++ rest) 0 = 0%Z.
Proof. reflexivity. Qed.

(** X1: an answer closed by the end marker is extracted exactly; the
    search for the marker starts at index 11, that is at the fourth
    code unit of the answer. *)
Theorem extractAnswer_closed (answer : jstring) :
  closed_by_marker answer →
  extractAnswer (lit "Answer: " ++ answer ++ end_marker) = answer.
Proof.
  unfold closed_by_marker, extractAnswer. intros Hclosed.
  rewrite indexOf_answer.
  assert (length (lit "Answer: " ++ answer ++ end_marker) = 8 + length answer + 13)
    as Hlen.
  { rewrite !length_app. simpl. lia. }
  assert (indexOf end_marker (lit "Answer: " ++ answer ++ end_marker) 11 =
          Z.of_nat (8 + length answer)) as ->.
  { unfold indexOf. rewrite Hlen.
    replace (Nat.min 11 (8 + length answer + 13)) with (8 + 3) by lia.
    change (drop (8 + 3) (lit "Answer: " ++ answer ++ end_marker))
      with (drop 3 (answer ++ end_marker)).
    by rewrite first_from_shift, Hclosed. }
  change (0 + 8)%Z with (Z.of_nat 8).
  unfold slice. rewrite !clamp_index by (rewrite Hlen; lia).
  change (drop 8 (lit "Answer: " ++ answer ++ end_marker))
    with (answer ++ end_marker).
  replace (8 + length answer - 8) with (length answer) by lia.
  by rewrite take_app_length.
Qed.

Lemma extractAnswer_closed_witness :
  extractAnswer (lit "Answer: " ++ [233; 233]%N ++ lit " forty-two" ++ end_marker) =
    [233; 233]%N ++ lit " forty-two".
Proof.
  apply (extractAnswer_closed ([233; 233]%N ++ lit " forty-two")). reflexivity.
Defined.

(** X2: an answer of fewer than three code units is not cut at its end
    marker: the marker then starts before index 11 and is not found, the
    end index is -1, and the result is the answer followed by the marker
    without its last character. *)
Theorem extractAnswer_short (answer : jstring) :
  length answer < 3 →
  extractAnswer (lit "Answer: " ++ answer ++ end_marker) =
    answer ++ lit "<|endoftext|".
Proof.
  intros Hlen.
  destruct answer as [|c1 [|c2 [|c3 answer]]]; [by vm_compute..|].
  simpl in Hlen. lia.
Qed.

Lemma extractAnswer_short_witness :
  extractAnswer (lit "Answer: " ++ lit "no" ++ end_marker) = lit "no<|endoftext|".
Proof. apply (extractAnswer_short (lit "no")). simpl. lia. Defined.

End ExtractFacts.

(** ** Fetching a tweet *)

Section FetchFacts.
Import RequestQueue Cache Fetch.
Implicit Types (d : path) (c : client) (tweet : Tweet).

Lemma getCachedTweet_hit d k c tweet :
  tweetCache c !! k = Some tweet → getCachedTweet d k c = (Ok (Some tweet), c).
Proof. intros Hk. unfold getCachedTweet. by rewrite Hk. Qed.

(** What a lookup can do to the client: nothing, or promote one tweet
    under its id. *)
Lemma getCachedTweet_client d k c :
  (getCachedTweet d k c).2 = c ∨
  ∃ tweet, (getCachedTweet d k c).1 = Ok (Some tweet) ∧
           tweetCache (getCachedTweet d k c).2 = <[id tweet := tweet]> (tweetCache c) ∧
           disk (getCachedTweet d k c).2 = disk c.
Proof.
  unfold getCachedTweet. destruct (tweetCache c !! k); [by left|].
  destruct (glob _ _) as [|f fs]; [by left|].
  destruct (readFile f (disk c)) as [tweet|e]; [|by left].
  right. by exists tweet.
Qed.

Lemma cacheTweet_client d (o : option Tweet) c :
  tweetCache (cacheTweet d o c).2 = tweetCache c ∨
  ∃ t, o = Some t ∧ (cacheTweet d o c).1 = Ok () ∧
       tweetCache (cacheTweet d o c).2 = <[id t := t]> (tweetCache c).
Proof.
  unfold cacheTweet. destruct o as [t|]; [|by left].
  destruct (conversationId t); [|by left].
  destruct (mkdir _ _); [|by left].
  destruct (writeFile _ _ _); [|by left].
  right. by exists t.
Qed.

Lemma well_keyed_insert c tweet (m : gmap string Tweet) :
  (∀ k t, m !! k = Some t → id t = k) →
  ∀ k t, <[id tweet := tweet]> m !! k = Some t → id t = k.
Proof.
  intros Hm k t [[<- <-]|[_ Hk]]%lookup_insert_Some; [done|]. by apply Hm.
Qed.

(** X4: the in-memory tier stays keyed by tweet id: it is so in a new
    client, and [cacheTweet], [getCachedTweet] and [getTweet] keep it so. *)
Theorem cache_stays_keyed_by_id d c :
  well_keyed c →
  (∀ o : option Tweet, well_keyed (cacheTweet d o c).2) ∧
  (∀ k, well_keyed (getCachedTweet d k c).2) ∧
  (∀ s after remote k r c',
     getTweet d s after remote k c = Some (r, c') → well_keyed c').
Proof.
  intros Hc.
  assert (∀ o : option Tweet, well_keyed (cacheTweet d o c).2) as Hput.
  { intros o. unfold well_keyed.
    destruct (cacheTweet_client d o c) as [->|(t & _ & _ & ->)]; [done|].
    by apply (well_keyed_insert c). }
  assert (∀ k, well_keyed (getCachedTweet d k c).2) as Hget.
  { intros k. unfold well_keyed.
    destruct (getCachedTweet_client d k c) as [->|(t & _ & -> & _)]; [done|].
    by apply (well_keyed_insert c). }
  split_and!; [done..|].
  intros s after remote k r c'. unfold getTweet.
  pose proof (Hget k) as Hk.
  destruct (getCachedTweet d k c) as [[[cached|]|e] c1] eqn:Hlook; simpl in Hk.
  - by intros [= _ <-].
  - destruct (Await.await_add _ _ _) as [[fetched|e]|]; [| |done].
    + unfold well_keyed in *.
      destruct (cacheTweet_client d fetched c1) as [Hsame|(t & _ & _ & Hins)];
        destruct (cacheTweet d fetched c1) as [[[]|e] c2]; simpl in *;
        intros [= _ <-]; rewrite ?Hsame, ?Hins; try done;
        by apply (well_keyed_insert c1).
    + by intros [= _ <-].
  - by intros [= _ <-].
Qed.

Lemma cache_stays_keyed_by_id_witness :
  well_keyed fresh ∧
  (∀ o : option Tweet, well_keyed (cacheTweet module_dir o fresh).2) ∧
  (∀ k, well_keyed (getCachedTweet module_dir k fresh).2) ∧
  (∀ s after remote k r c',
     getTweet module_dir s after remote k fresh = Some (r, c') → well_keyed c').
Proof.
  assert (well_keyed fresh) as Hfresh by (intros k t Hk; by vm_compute in Hk).
  split; [exact Hfresh|].
  apply (cache_stays_keyed_by_id module_dir fresh Hfresh).
Defined.

(** X5: the last write wins: caching a second version of a tweet (same
    id, same conversation) replaces the first in both tiers; the lookup
    returns the second version and the file of the first is overwritten. *)
Theorem cacheTweet_last_write_wins d t1 t2 c c1 c2 :
  id t2 = id t1 → conversationId t2 = conversationId t1 →
  cacheTweet d (Some t1) c = (Ok (), c1) →
  cacheTweet d (Some t2) c1 = (Ok (), c2) →
  getCachedTweet d (id t1) c2 = (Ok (Some t2), c2) ∧
  ∃ p, files (disk c1) = <[p := t1]> (files (disk c)) ∧
       files (disk c2) = <[p := t2]> (files (disk c)).
Proof.
  intros Hid Hconv H1 H2.
  apply (cacheTweet_ok_inv d t1 c c1) in H1 as (conv1 & fs1 & Hc1 & _ & _ & Hf1).
  apply (cacheTweet_ok_inv d t2 c1 c2) in H2 as (conv2 & fs2 & Hc2 & _ & Hm2 & Hf2).
  rewrite Hconv, Hc1 in Hc2. injection Hc2 as <-. rewrite Hid in Hf2, Hm2.
  split.
  - apply getCachedTweet_hit. by rewrite Hm2, lookup_insert_eq.
  - eexists. split; [exact Hf1|]. by rewrite Hf2, Hf1, insert_insert_eq.
Qed.

Lemma cacheTweet_last_write_wins_witness :
  let c1 := (cacheTweet module_dir (Some sample) fresh).2 in
  let c2 := (cacheTweet module_dir (Some edited) c1).2 in
  getCachedTweet module_dir (id sample) c2 = (Ok (Some edited), c2) ∧
  ∃ p, files (disk c1) = <[p := sample]> (files (disk fresh)) ∧
       files (disk c2) = <[p := edited]> (files (disk fresh)).
Proof.
  intros c1 c2.
  apply (cacheTweet_last_write_wins module_dir sample edited fresh c1 c2);
    by vm_compute.
Defined.

Lemma getCachedTweet_found d k c tweet c1 :
  well_keyed c →
  getCachedTweet d k c = (Ok (Some tweet), c1) →
  tweetCache c1 !! id tweet = Some tweet.
Proof.
  intros Hc. unfold getCachedTweet.
  destruct (tweetCache c !! k) as [t|] eqn:Hk.
  - intros [= -> <-]. by rewrite <- (Hc k tweet Hk) in Hk.
  - destruct (glob _ _); [done|]. destruct (readFile _ _); [|done].
    intros [= -> <-]. simpl. apply lookup_insert_eq.
Qed.

Lemma cacheTweet_stored d tweet c c2 (r : unit) :
  cacheTweet d (Some tweet) c = (Ok r, c2) →
  tweetCache c2 !! id tweet = Some tweet.
Proof.
  unfold cacheTweet. destruct (conversationId tweet); [|done].
  destruct (mkdir _ _); [|done]. destruct (writeFile _ _ _); [|done].
  intros [= _ <-]. simpl. apply lookup_insert_eq.
Qed.

(** X6: a tweet is fetched once: after a [getTweet] that returned a
    tweet, [getTweet] for the id of this tweet returns it at once from
    the in-memory tier, whatever the queue and the remote do, and leaves
    the client as it is. *)
Theorem getTweet_fetches_once d c s after remote k tweet c' :
  well_keyed c →
  getTweet d s after remote k c = Some (inr (Some tweet), c') →
  ∀ s' after' remote',
    getTweet d s' after' remote' (id tweet) c' = Some (inr (Some tweet), c').
Proof.
  intros Hc Hget s' after' remote'.
  assert (tweetCache c' !! id tweet = Some tweet) as Hin.
  { unfold getTweet in Hget.
    destruct (getCachedTweet d k c) as [[[cached|]|e] c1] eqn:Hlook.
    - injection Hget as -> <-. by apply (getCachedTweet_found d k c).
    - destruct (Await.await_add _ _ _) as [[fetched|e]|]; [|done..].
      destruct (cacheTweet d fetched c1) as [[r|e] c2] eqn:Hput; [|done].
      injection Hget as -> <-. by apply (cacheTweet_stored d tweet c1 c2 r).
    - done. }
  unfold getTweet. by rewrite (getCachedTweet_hit d _ c' tweet Hin).
Qed.

Lemma getTweet_fetches_once_witness :
  let first := getTweet module_dir init [Wake 0] (Fulfils (Some sample)) "1" fresh in
  ∃ c', first = Some (inr (Some sample), c') ∧
        ∀ s' after' remote',
          getTweet module_dir s' after' remote' (id sample) c' =
            Some (inr (Some sample), c').
Proof.
  intros first. eexists. split; [by vm_compute|].
  apply (getTweet_fetches_once module_dir fresh init [Wake 0]
           (Fulfils (Some sample)) "1" sample).
  - intros k t Hk. by vm_compute in Hk.
  - by vm_compute.
Defined.

End FetchFacts.

Section FetchErrors.
Import RequestQueue Cache Fetch.

(** X7: when both tiers miss and the remote call throws, [getTweet]
    throws this error to its caller (it is not retried, and it is thrown
    once the operations the queue awaits have settled); the client is as
    before, nothing is cached. *)
Theorem getTweet_remote_error_propagates (d : path)
    (before after : list (input (option Tweet))) (e : string)
    (k : string) (c : client) :
  getCachedTweet d k c = (Ok None, c) →
  let s := run init before in
  (getTweet d s after (Throws e) k c = None ∨
   getTweet d s after (Throws e) k c = Some (inl (Remote e), c)) ∧
  (∃ n, getTweet d s (after ++ replicate n (Wake 0)) (Throws e) k c =
        Some (inl (Remote e), c)).
Proof.
  intros Hmiss s. pose proof (reachable_consistent before) as Hs. fold s in Hs.
  unfold getTweet. rewrite Hmiss. split.
  - destruct (await_add_first_outcome _ s (fun _ => Throws e) after Hs) as [->| ->];
      [by left|by right].
  - destruct (await_add_settles _ s (fun _ => Throws e) after Hs) as [n Hn].
    exists n. by rewrite Hn.
Qed.

Lemma getTweet_remote_error_propagates_witness :
  getTweet module_dir init [Wake 0] (Throws "rate limited") "1" fresh =
    Some (inl (Remote "rate limited"), fresh) ∧
  ((getTweet module_dir (run init []) [Wake 0] (Throws "rate limited") "1" fresh = None ∨
    getTweet module_dir (run init []) [Wake 0] (Throws "rate limited") "1" fresh =
      Some (inl (Remote "rate limited"), fresh)) ∧
   (∃ n, getTweet module_dir (run init []) ([Wake 0] ++ replicate n (Wake 0))
           (Throws "rate limited") "1" fresh =
         Some (inl (Remote "rate limited"), fresh))).
Proof.
  split; [by vm_compute|].
  apply (getTweet_remote_error_propagates module_dir [] [Wake 0] "rate limited"
           "1" fresh).
  by vm_compute.
Defined.

(** X8: a fetched tweet without conversation id cannot be cached:
    [path.join] throws a TypeError, and [getTweet] throws it instead of
    returning the tweet it fetched; when the remote call yields null,
    [getTweet] returns null and only a warning is logged. Nothing is
    written to either tier in both cases. *)
Theorem getTweet_uncacheable_results (d : path)
    (before after : list (input (option Tweet))) (tweet : Tweet)
    (k : string) (c : client) :
  getCachedTweet d k c = (Ok None, c) →
  conversationId tweet = None →
  let s := run init before in
  (∃ n msg, getTweet d s (after ++ replicate n (Wake 0)) (Fulfils (Some tweet)) k c =
            Some (inl (Local (TypeError msg)), c)) ∧
  (∃ n c', getTweet d s (after ++ replicate n (Wake 0)) (Fulfils None) k c =
           Some (inr None, c') ∧
           tweetCache c' = tweetCache c ∧ disk c' = disk c ∧
           warnings c' = warnings c ++ ["Tweet is undefined, skipping cache"]).
Proof.
  intros Hmiss Hconv s. pose proof (reachable_consistent before) as Hs. fold s in Hs.
  unfold getTweet. rewrite Hmiss. split.
  - destruct (await_add_settles _ s (fun _ => Fulfils (Some tweet)) after Hs) as [n Hn].
    exists n. rewrite Hn. unfold cacheTweet. rewrite Hconv. by eexists.
  - destruct (await_add_settles _ s (fun _ => Fulfils None) after Hs) as [n Hn].
    exists n. rewrite Hn. by eexists.
Qed.

Lemma getTweet_uncacheable_results_witness :
  (∃ n msg, getTweet module_dir (run init []) ([] ++ replicate n (Wake 0))
              (Fulfils (Some orphan)) "7" fresh =
            Some (inl (Local (TypeError msg)), fresh)) ∧
  (∃ n c', getTweet module_dir (run init []) ([] ++ replicate n (Wake 0))
             (Fulfils None) "7" fresh =
           Some (inr None, c') ∧
           tweetCache c' = tweetCache fresh ∧ disk c' = disk fresh ∧
           warnings c' = warnings fresh ++ ["Tweet is undefined, skipping cache"]).
Proof.
  apply (getTweet_uncacheable_results module_dir [] [] orphan "7" fresh).
  - by vm_compute.
  - reflexivity.
Defined.

End FetchErrors.

(** ** Session set-up *)

Section SessionFacts.
Import RequestQueue Session.

Lemma logins_in_app (a b : list act) : logins_in (a ++ b) = logins_in a + logins_in b.
Proof. unfold logins_in. by rewrite filter_app, length_app. Qed.

Lemma acts_of_after (acts : list act) (w : waiting) :
  acts_of (after acts w) = acts ++ acts_of w.
Proof. by destruct w. Qed.

Lemma wait_for_login_polling (n loggedInWaits logins : nat) (relogin : nat → bool) :
  (∀ k, relogin k = true) →
  ∃ acts w, wait_for_login (replicate n false) relogin loggedInWaits logins =
              Polling acts w.
Proof.
  intros Hre. revert loggedInWaits logins.
  induction n as [|n IH]; intros w k; simpl; [by eexists _, _|].
  destruct (10 <? w).
  - rewrite Hre. destruct (IH 1 (S k)) as (acts & w' & ->). by eexists _, _.
  - destruct (IH (w + 1) k) as (acts & w' & ->). by eexists _, _.
Qed.

Lemma wait_for_login_logins (n loggedInWaits logins : nat) (relogin : nat → bool) :
  (∀ k, relogin k = true) → loggedInWaits ≤ 11 →
  logins_in (acts_of (wait_for_login (replicate n false) relogin loggedInWaits logins)) =
    (n + loggedInWaits - 1) / 11.
Proof.
  intros Hre. revert loggedInWaits logins.
  induction n as [|n IH]; intros w k Hw.
  - change (logins_in _) with 0. symmetry. apply Nat.div_small. lia.
  - cbn [replicate wait_for_login]. destruct (10 <? w) eqn:Hcmp.
    + apply Nat.ltb_lt in Hcmp. assert (w = 11) as -> by lia.
      rewrite Hre, acts_of_after, logins_in_app, IH by lia.
      replace (S n + 11 - 1) with (n + 1 * 11) by lia.
      rewrite Nat.div_add by done.
      replace (n + (0 + 1) - 1) with n by lia.
      change (logins_in _) with 1. lia.
    + apply Nat.ltb_ge in Hcmp.
      rewrite acts_of_after, logins_in_app, IH by lia.
      change (logins_in _) with 0.
      by replace (S n + w - 1) with (n + (w + 1) - 1) by lia.
Qed.

(** X9: while [isLoggedIn] keeps answering false, the loop sleeps 2 s
    per answer and forces a login at the 12th answer and then at every
    11th: after [n] answers it has forced [(n - 1) / 11] logins (the
    counter restarts at 1, not at 0, after a forced login). *)
Theorem forced_logins_while_waiting (n : nat) (relogin : nat → bool) :
  (∀ k, relogin k = true) →
  ∃ acts w,
    wait_for_login (replicate n false) relogin 0 0 = Polling acts w ∧
    logins_in acts = (n - 1) / 11.
Proof.
  intros Hre.
  destruct (wait_for_login_polling n 0 0 relogin Hre) as (acts & w & Hw).
  exists acts, w. split; [done|].
  pose proof (wait_for_login_logins n 0 0 relogin Hre) as Hn.
  rewrite Hw in Hn. cbn [acts_of] in Hn. rewrite Hn by lia.
  by replace (n + 0 - 1) with (n - 1) by lia.
Qed.

Lemma forced_logins_while_waiting_witness :
  (∃ acts w, wait_for_login (replicate 11 false) (fun _ => true) 0 0 = Polling acts w ∧
             logins_in acts = 0) ∧
  (∃ acts w, wait_for_login (replicate 12 false) (fun _ => true) 0 0 = Polling acts w ∧
             logins_in acts = 1) ∧
  (∃ acts w, wait_for_login (replicate 23 false) (fun _ => true) 0 0 = Polling acts w ∧
             logins_in acts = 2).
Proof.
  split_and!.
  - apply (forced_logins_while_waiting 11 (fun _ => true)). reflexivity.
  - apply (forced_logins_while_waiting 12 (fun _ => true)). reflexivity.
  - apply (forced_logins_while_waiting 23 (fun _ => true)). reflexivity.
Defined.

(** X10: in the first phase a login is attempted exactly when
    TWITTER_COOKIES is not set and the store holds no cookies, and then
    once; every failure in this branch (of the login, of reading the
    cookies after it, or of saving them) ends the initialisation with the
    loginError signal and without the initializationError signal. *)
Theorem login_only_without_cookies (inline : setting)
    (saved : option (list TwitterCookie)) (install store login : bool)
    (scraped : option (list (string * string))) :
  let result := install_credentials inline saved install store login scraped in
  (logins_in (first_phase_acts result) = if no_cookies inline saved then 1 else 0) ∧
  (inline = Unset → saved = None →
   match result with
   | Continue acts => login = true ∧ is_Some scraped ∧ store = true
   | Stopped acts =>
       last acts = Some (Emit "loginError") ∧
       Emit "initializationError" ∉ acts
   end).
Proof.
  intros result. subst result. split.
  - by destruct inline as [| |cookies], saved as [savedCookies|], install, store,
      login, scraped as [cookies'|].
  - intros -> ->. unfold install_credentials, login_failed.
    destruct login, scraped as [cookies|], store; simpl;
      try (split_and!; by eauto);
      (split; [done|]); rewrite !not_elem_of_cons; split_and!; try done;
      apply not_elem_of_nil.
Qed.

(** X11: the record [saveCookiesToDatabase] writes lies in the room
    [loadCookiesFromDatabase] reads, and when [getMemories] returns it
    first, the cookies are read back as saved; except that a saved empty
    list is passed over, as if nothing had been saved. *)
Theorem saved_cookies_are_loaded (stringToUuid : string → string) (agentId : string)
    (cookies : list TwitterCookie) (rest : list Stored) :
  s_roomId (cookie_memory stringToUuid agentId cookies) =
    cookie_room stringToUuid agentId ∧
  loadCookiesFromDatabase (cookie_memory stringToUuid agentId cookies :: rest) =
    match cookies with
    | [] => loadCookiesFromDatabase rest
    | _ :: _ => Some cookies
    end.
Proof.
  split; [done|]. unfold loadCookiesFromDatabase. simpl.
  assert (holds_cookies (cookie_memory stringToUuid agentId cookies) =
          bool_decide (0 < length cookies)) as ->.
  { done. }
  destruct cookies as [|cookie cookies].
  - by rewrite bool_decide_false by (simpl; lia).
  - by rewrite bool_decide_true by (simpl; lia).
Qed.

End SessionFacts.

(** ** Passes of the timeline population *)

Section BackfillFacts.
Import Reconcile Backfill.
Variable stringToUuid : string → string.
Variables agentId twitterUserId twitterUsername characterName : string.

Lemma getMemoryById_None (k : string) (w : world) :
  getMemoryById k w = None → k ∉ map m_id (memories w).
Proof.
  unfold getMemoryById. intros Hhead (m & -> & Hm)%list_elem_of_fmap.
  destruct (filter _ _) as [|m' l] eqn:Hfilter; [|done].
  by apply (filter_nil_not_elem_of _ _ m Hfilter).
Qed.

Lemma createMemory_fresh (m : Memory) (w : world) :
  m_id m ∉ map m_id (memories w) →
  memories (createMemory m w) = memories w ++ [m].
Proof. intros Hm. unfold createMemory. simpl. by rewrite decide_False. Qed.

Lemma createMemory_known (m : Memory) (w : world) :
  m_id m ∈ map m_id (memories w) →
  memories (createMemory m w) = memories w.
Proof. intros Hm. unfold createMemory. simpl. by rewrite decide_True. Qed.

Lemma save_missing_appends (l : list Tweet) (w : world) :
  NoDup (map m_id (memories w)) →
  ∃ new,
    memories (save_missing stringToUuid agentId twitterUserId l w) =
      memories w ++ new ∧
    creates (save_missing stringToUuid agentId twitterUserId l w) =
      creates w ++ new ∧
    NoDup (map m_id (memories w ++ new)) ∧
    ∀ m, m ∈ new → ∃ t, t ∈ l ∧ m_id m = (derived_key stringToUuid agentId) t.
Proof.
  revert w; induction l as [|t l IH]; intros w Hw.
  - exists []. rewrite !app_nil_r. split_and!; [done..|]. by intros m Hm%elem_of_nil.
  - cbn [save_missing].
    destruct (getMemoryById _ _) as [found|] eqn:Hfound.
    + exists []. rewrite !app_nil_r. split_and!; [done..|]. by intros m Hm%elem_of_nil.
    + apply getMemoryById_None in Hfound. simpl in Hfound.
      match goal with
      | |- context [save_missing _ _ _ l (createMemory ?m ?w1)] =>
          pose proof (createMemory_fresh m w1 Hfound) as Hstore;
          destruct (IH (createMemory m w1)) as (new & Hmem & Hcalls & Hnd & Hnew)
      end.
      { rewrite Hstore. simpl. rewrite map_app. simpl. apply NoDup_app.
        split_and!; [done| |].
        - intros k Hk Hin. apply list_elem_of_singleton in Hin as ->. contradiction.
        - apply NoDup_singleton. }
      rewrite Hstore in Hmem, Hnd. simpl in Hmem, Hcalls, Hnd.
      rewrite <- app_assoc in Hmem, Hcalls, Hnd. simpl in Hmem, Hcalls, Hnd.
      eexists. split_and!; [exact Hmem|exact Hcalls|exact Hnd|].
      intros m [->|Hm]%elem_of_cons.
      * exists t. split; [left|done].
      * destruct (Hnew m Hm) as (u & Hu & Hid). exists u. split; [by right|done].
Qed.

(** X12: the loop of the snapshot branch only appends records, and never
    one whose id is already in the store: ids that were distinct before
    are distinct after it, and every record it creates carries the
    derived key of one of the tweets it was given. *)
Theorem save_missing_keeps_ids_distinct (l : list Tweet) (w : world) :
  NoDup (map m_id (memories w)) →
  let w' := save_missing stringToUuid agentId twitterUserId l w in
  NoDup (map m_id (memories w')) ∧
  memories w `prefix_of` memories w' ∧
  (∀ k, k ∈ created w w' → (k ∉ map m_id (memories w)) ∧ ∃ t, t ∈ l ∧ k = (derived_key stringToUuid agentId) t).
Proof.
  intros Hw w'.
  destruct (save_missing_appends l w Hw) as (new & Hmem & Hcalls & Hnd & Hnew).
  subst w'. unfold created. rewrite Hmem, Hcalls. split_and!.
  - done.
  - by apply prefix_app_r.
  - rewrite drop_app_length. intros k (m & -> & Hm)%list_elem_of_fmap. split.
    + rewrite map_app in Hnd. apply NoDup_app in Hnd as (_ & Hdisj & _).
      intros Hin. apply (Hdisj _ Hin). apply list_elem_of_fmap. by exists m.
    + destruct (Hnew m Hm) as (t & Ht & Hid). by exists t.
Qed.

(** The loop of the search branch: a [createMemory] call for every tweet
    it is given, in order; the store keeps what it held, and holds a
    record under each of these keys afterwards. *)
Lemma save_new_calls (l : list Tweet) (w : world) :
  let w' := save_new stringToUuid agentId twitterUserId l w in
  ∃ new,
    creates w' = creates w ++ new ∧
    timeline_cache w' = timeline_cache w ∧
    map m_id new = map (derived_key stringToUuid agentId) l ∧
    map m_roomId new = map (room_of stringToUuid agentId) l ∧
    (∀ m, m ∈ memories w' → m ∈ memories w ∨ m ∈ new) ∧
    (∀ k, k ∈ map m_id (memories w) → k ∈ map m_id (memories w')) ∧
    (∀ t, t ∈ l → derived_key stringToUuid agentId t ∈ map m_id (memories w')).
Proof.
  revert w; induction l as [|t l IH]; intros w; cbn zeta.
  - exists []. rewrite app_nil_r. split_and!; try done.
    + by left.
    + by intros t Ht%elem_of_nil.
  - cbn [save_new].
    match goal with
    | |- context [save_new _ _ _ l (createMemory ?m ?w1)] =>
        destruct (IH (createMemory m w1))
          as (new & Hcalls & Hcache & Hids & Hrooms & Hfrom & Hkeep & Hkeys);
        set (rec := m) in *; set (w2 := w1) in *
    end.
    assert (∀ k, k ∈ map m_id (memories w) →
                 k ∈ map m_id (memories (createMemory rec w2))) as Hstep.
    { intros k Hk. unfold createMemory. simpl. case_decide; [done|].
      rewrite map_app. apply elem_of_app. by left. }
    assert (m_id rec ∈ map m_id (memories (createMemory rec w2))) as Hrec.
    { unfold createMemory. simpl. case_decide; [done|].
      rewrite map_app. apply elem_of_app. right. by left. }
    simpl in Hcalls, Hcache. rewrite <- app_assoc in Hcalls.
    exists (rec :: new). split_and!.
    + exact Hcalls.
    + exact Hcache.
    + simpl. by f_equal.
    + simpl. by f_equal.
    + intros m Hm. destruct (Hfrom m Hm) as [Hold|Hnew]; [|right; by right].
      unfold createMemory in Hold. simpl in Hold. case_decide; [by left|].
      apply elem_of_app in Hold as [Hold|Hold]; [by left|].
      apply list_elem_of_singleton in Hold as ->. right. left.
    + intros k Hk. by apply Hkeep, Hstep.
    + intros u [->|Hu]%elem_of_cons; [by apply Hkeep|by apply Hkeys].
Qed.

(** The store ignores the creation of records it holds: where it holds
    a record under the key of every tweet, the loop leaves it as it is. *)
Lemma save_new_known (l : list Tweet) (w : world) :
  (∀ t, t ∈ l → derived_key stringToUuid agentId t ∈ map m_id (memories w)) →
  memories (save_new stringToUuid agentId twitterUserId l w) = memories w.
Proof.
  revert w; induction l as [|t l IH]; intros w Hl; [done|].
  cbn [save_new].
  match goal with
  | |- context [save_new _ _ _ l (createMemory ?m ?w1)] =>
      assert (memories (createMemory m w1) = memories w) as Hstore
  end.
  { etrans; [apply createMemory_known|done]. simpl. apply Hl. left. }
  rewrite IH; [done|]. intros u Hu. rewrite Hstore. apply Hl. by right.
Qed.

Lemma unique_subset (seen l : list string) (x : string) : x ∈ unique seen l → x ∈ l.
Proof.
  revert seen; induction l as [|i l IH]; intros seen; simpl; [done|].
  case_decide.
  - intros Hx. right. by eapply IH.
  - intros [->|Hx]%elem_of_cons; [left|right; by eapply IH].
Qed.

Lemma filter_all {A} (P : A → Prop) `{∀ x, Decision (P x)} (l : list A) :
  (∀ x, x ∈ l → P x) → filter P l = l.
Proof.
  induction l as [|x l IH]; intros Hl; [done|].
  rewrite filter_cons_True by (apply Hl; left).
  f_equal. apply IH. intros y Hy. apply Hl. by right.
Qed.

(** Where no record of the store has the derived key of a fetched tweet
    as its room, the search branch filters nothing out: it is the loop
    over every fetched tweet, followed by the writing of the snapshot. *)
Lemma populate_from_search_all (mentions : list Tweet) (w : world) :
  (∀ m t, m ∈ memories w → t ∈ mentions → m_roomId m ≠ (derived_key stringToUuid agentId) t) →
  populate_from_search stringToUuid agentId twitterUserId twitterUsername
    characterName mentions w =
  write_cache mentions
    (save_new stringToUuid agentId twitterUserId mentions
       (ensureUserExists agentId twitterUsername characterName "twitter" w)).
Proof.
  intros Hrooms. unfold populate_from_search.
  assert (getMemoriesByRoomIds agentId
            (map (fun i => stringToUuid (i +:+ "-" +:+ agentId))
               (unique [] (map id mentions))) w = []) as ->.
  { unfold getMemoriesByRoomIds. apply filter_none.
    intros m Hm [_ (i & Hroom & Hi)%list_elem_of_fmap].
    apply unique_subset, list_elem_of_fmap in Hi as (t & -> & Ht).
    by apply (Hrooms m t). }
  simpl. by rewrite filter_all by (intros t _; apply not_elem_of_nil).
Qed.

(** X13: [populateTimeline] does not recognise the records it created.
    On a new store the first pass calls [createMemory] once per fetched
    tweet and writes the snapshot; a second pass with the same search
    result finds none of these records (it asks for rooms named by
    derived keys, and for tweet ids among record ids) and calls
    [createMemory] for every tweet once more. That the store holds what
    it held after the first pass is the doing of the store, which
    ignores the second creation of a record. *)
Theorem populateTimeline_second_pass_creates_again (mentions : list Tweet) :
  (∀ t x, t ∈ mentions → id t ≠ stringToUuid x) →
  (∀ t u, t ∈ mentions → u ∈ mentions → room_of stringToUuid agentId t ≠ (derived_key stringToUuid agentId) u) →
  let pass := populateTimeline stringToUuid agentId twitterUserId
                twitterUsername characterName mentions in
  created blank (pass blank) = map (derived_key stringToUuid agentId) mentions ∧
  timeline_cache (pass blank) = Some mentions ∧
  created (pass blank) (pass (pass blank)) =
    map (derived_key stringToUuid agentId) mentions ∧
  memories (pass (pass blank)) = memories (pass blank).
Proof.
  intros Hids Hrooms pass.
  assert (pass blank =
          write_cache mentions
            (save_new stringToUuid agentId twitterUserId mentions
               (ensureUserExists agentId twitterUsername characterName "twitter" blank)))
    as Hfirst.
  { apply populate_from_search_all. intros m t Hm. by apply elem_of_nil in Hm. }
  destruct (save_new_calls mentions
              (ensureUserExists agentId twitterUsername characterName "twitter" blank))
    as (new & Hcalls & _ & Hnew & Hnewrooms & Hfrom & _ & Hkeys).
  assert (∀ m, m ∈ memories (pass blank) → m ∈ new) as Hstored.
  { intros m Hm. rewrite Hfirst in Hm. simpl in Hm.
    destruct (Hfrom m Hm) as [Hold|?]; [|done]. by apply elem_of_nil in Hold. }
  assert (pass (pass blank) =
          write_cache mentions
            (save_new stringToUuid agentId twitterUserId mentions
               (ensureUserExists agentId twitterUsername characterName "twitter"
                  (pass blank))))
    as Hsecond.
  { subst pass. cbv beta.
    rewrite (snapshot_not_used stringToUuid agentId twitterUserId twitterUsername
               characterName mentions _ mentions).
    - apply populate_from_search_all. intros m t Hm Ht.
      assert (m_roomId m ∈ map (room_of stringToUuid agentId) mentions)
        as (u & -> & Hu)%list_elem_of_fmap.
      { rewrite <- Hnewrooms. apply list_elem_of_fmap. exists m. split; [done|].
        by apply Hstored. }
      by apply Hrooms.
    - by rewrite Hfirst.
    - intros t m Ht Hm.
      assert (m_id m ∈ map (derived_key stringToUuid agentId) mentions)
        as (u & -> & Hu)%list_elem_of_fmap.
      { rewrite <- Hnew. apply list_elem_of_fmap. exists m. split; [done|].
        by apply Hstored. }
      by apply Hids. }
  split_and!.
  - unfold created. rewrite Hfirst. simpl. simpl in Hcalls. rewrite Hcalls.
    by rewrite drop_0.
  - by rewrite Hfirst.
  - destruct (save_new_calls mentions
                (ensureUserExists agentId twitterUsername characterName "twitter"
                   (pass blank)))
      as (new' & Hcalls' & _ & Hnew' & _).
    unfold created. rewrite Hsecond. simpl. simpl in Hcalls'. rewrite Hcalls'.
    by rewrite drop_app_length.
  - rewrite Hsecond. simpl. rewrite save_new_known; [done|].
    intros t Ht.
    change (memories (ensureUserExists agentId twitterUsername characterName
                        "twitter" (pass blank)))
      with (memories (pass blank)).
    rewrite Hfirst. by apply Hkeys.
Qed.

End BackfillFacts.

Lemma save_missing_keeps_ids_distinct_witness :
  let w' := Reconcile.save_missing Reconcile.tagged "agent" "me"
              [Reconcile.tweet2; Reconcile.tweet1] Reconcile.resumed in
  Reconcile.created Reconcile.resumed w' = ["uuid:2-agent"] ∧
  (NoDup (map Reconcile.m_id (Reconcile.memories w')) ∧
   Reconcile.memories Reconcile.resumed `prefix_of` Reconcile.memories w' ∧
   (∀ k, k ∈ Reconcile.created Reconcile.resumed w' →
         (k ∉ map Reconcile.m_id (Reconcile.memories Reconcile.resumed)) ∧
         ∃ t, t ∈ [Reconcile.tweet2; Reconcile.tweet1] ∧
              k = Reconcile.derived_key Reconcile.tagged "agent" t)).
Proof.
  intros w'. split; [by vm_compute|].
  apply (save_missing_keeps_ids_distinct Reconcile.tagged "agent" "me"
           [Reconcile.tweet2; Reconcile.tweet1] Reconcile.resumed).
  simpl. apply NoDup_singleton.
Defined.

Lemma populateTimeline_second_pass_creates_again_witness :
  let pass := Reconcile.populateTimeline Reconcile.tagged "agent" "me" "bot" "Bot"
                [Reconcile.tweet1; Reconcile.tweet2] in
  map Reconcile.m_id (Reconcile.creates (pass (pass Backfill.blank))) =
    ["uuid:1-agent"; "uuid:2-agent"; "uuid:1-agent"; "uuid:2-agent"] ∧
  map Reconcile.m_id (Reconcile.memories (pass (pass Backfill.blank))) =
    ["uuid:1-agent"; "uuid:2-agent"] ∧
  (Reconcile.created Backfill.blank (pass Backfill.blank) =
     map (Reconcile.derived_key Reconcile.tagged "agent")
       [Reconcile.tweet1; Reconcile.tweet2] ∧
   Reconcile.timeline_cache (pass Backfill.blank) =
     Some [Reconcile.tweet1; Reconcile.tweet2] ∧
   Reconcile.created (pass Backfill.blank) (pass (pass Backfill.blank)) =
     map (Reconcile.derived_key Reconcile.tagged "agent")
       [Reconcile.tweet1; Reconcile.tweet2] ∧
   Reconcile.memories (pass (pass Backfill.blank)) =
     Reconcile.memories (pass Backfill.blank)).
Proof.
  intros pass. split; [by vm_compute|]. split; [by vm_compute|].
  apply (populateTimeline_second_pass_creates_again Reconcile.tagged "agent" "me"
           "bot" "Bot" [Reconcile.tweet1; Reconcile.tweet2]).
  - intros t x Ht. repeat (apply elem_of_cons in Ht as [->|Ht]); try done.
    by apply elem_of_nil in Ht.
  - intros t u Ht Hu.
    repeat (apply elem_of_cons in Ht as [->|Ht]); try (by apply elem_of_nil in Ht);
    repeat (apply elem_of_cons in Hu as [->|Hu]); try (by apply elem_of_nil in Hu);
    by vm_compute.
Defined.

(** ** Logger *)

Section LoggerFacts.
Import Utf16 Logger.

Lemma split_nonempty (sep : N) (s : jstring) : split sep s ≠ [].
Proof.
  destruct s as [|u rest]; simpl; [done|].
  destruct (N.eqb u sep); [done|]. by destruct (split sep rest).
Qed.

Lemma join_cons (sep x : jstring) (l : list jstring) :
  l ≠ [] → join sep (x :: l) = x ++ sep ++ join sep l.
Proof. by destruct l. Qed.

(** Joining what [split] gives, with the separator, gives the string back. *)
Lemma join_split (sep : N) (s : jstring) : join [sep] (split sep s) = s.
Proof.
  induction s as [|u rest IH]; [done|]. cbn [split].
  pose proof (split_nonempty sep rest) as Hne.
  destruct (N.eqb u sep) eqn:Hu.
  - apply N.eqb_eq in Hu as ->. rewrite join_cons by done. by rewrite IH.
  - destruct (split sep rest) as [|first others]; [done|].
    destruct others as [|second others].
    + cbn [join] in *. by rewrite IH.
    + rewrite join_cons by done. rewrite join_cons in IH by done.
      by rewrite <- IH.
Qed.

Lemma join_snoc (sep : jstring) (l : list jstring) (final : jstring) :
  l ≠ [] → join sep (l ++ [final]) = join sep l ++ sep ++ final.
Proof.
  induction l as [|x l IH]; [done|]. intros _.
  destruct l as [|y l]; [done|].
  change ((x :: y :: l) ++ [final]) with (x :: ((y :: l) ++ [final])).
  rewrite join_cons by done. rewrite IH by done.
  rewrite (join_cons sep x (y :: l)) by done. by rewrite <- !app_assoc.
Qed.

Lemma join_frame (top message bottom : jstring) :
  join newline ([top] ++ split line_feed message ++ [bottom]) =
    top ++ newline ++ message ++ newline ++ bottom.
Proof.
  change ([top] ++ split line_feed message ++ [bottom])
    with ((top :: split line_feed message) ++ [bottom]).
  rewrite join_snoc by done.
  rewrite join_cons by apply split_nonempty.
  unfold newline. rewrite join_split. by rewrite <- !app_assoc.
Qed.

Lemma length_repeat_units (s : jstring) (n : nat) :
  length (repeat_units s n) = n * length s.
Proof. induction n as [|n IH]; simpl; [done|]. by rewrite length_app, IH. Qed.

Lemma endsWith_app (a suffix : jstring) : endsWith (a ++ suffix) suffix = true.
Proof.
  unfold endsWith. rewrite length_app.
  replace (length a + length suffix - length suffix) with (length a) by lia.
  rewrite drop_app_length. rewrite bool_decide_eq_true_2 by done.
  rewrite andb_true_r. apply Nat.leb_le. lia.
Qed.

(** X14: [frameMessage] throws a RangeError for a title of more than 31
    code units; otherwise it returns a first line of exactly 102 code
    units, the message unchanged (all its lines), and the closing line
    of 34 stars. A missing title counts as "log". *)
Theorem frameMessage_frame (message : jstring) (title : option jstring) :
  if decide (length (default (lit "log") title) ≤ 31)
  then ∃ top,
         frameMessage message title =
           Some (top ++ newline ++ message ++ newline ++ repeat_units (lit "*") 34) ∧
         length top = 102
  else frameMessage message title = None.
Proof.
  unfold frameMessage. cbv zeta. set (shown := default (lit "log") title).
  change (repeat (lit "*") (30 + 4)) with (Some (repeat_units (lit "*") 34)).
  cbn [mbind option_bind]. unfold repeat.
  case_decide as Hlen.
  - replace (30 - Z.of_nat (length shown) + 1 <? 0)%Z with false
      by (symmetry; apply Z.ltb_ge; lia).
    cbn [mbind option_bind]. eexists. split.
    + f_equal. apply join_frame.
    + rewrite !length_app, !length_repeat_units. simpl. lia.
  - by replace (30 - Z.of_nat (length shown) + 1 <? 0)%Z with true
      by (symmetry; apply Z.ltb_lt; lia).
Qed.

(** X15: [log_to_file] appends to a file whose name ends in ".log" or
    ".txt": a name with one of these endings is kept, any other gets
    ".log" added. When no call on the file system throws, what the file
    held before stays in front of the new entry, no other file changes,
    and the logger is handed the preview of the message (at most 203
    code units of it) followed by the file name; an error of
    [mkdirSync] or [appendFileSync] is thrown on, with the files as they
    were and nothing logged. *)
Theorem log_to_file_extension (filename message joined timestamp : jstring)
    (dir_exists : bool) (mkdir append : option string)
    (files : gmap jstring jstring) :
  let fullPath := log_path joined in
  let out := log_to_file filename message joined timestamp dir_exists mkdir append
               files in
  (endsWith fullPath (lit ".log") || endsWith fullPath (lit ".txt")) = true ∧
  ((endsWith joined (lit ".log") || endsWith joined (lit ".txt")) = true →
   fullPath = joined) ∧
  length (preview message) ≤ 203 ∧
  ((dir_exists = true ∨ mkdir = None) → append = None →
   ∃ color,
     out.1 = Ok (Some (color,
                       lit "Logged to " ++ filename ++ lit ": " ++ preview message ++
                       lit " " ++ filename)) ∧
     out.2 !! fullPath =
       Some (default [] (files !! fullPath) ++
             lit "[" ++ timestamp ++ lit "] " ++ message ++ newline) ∧
     (∀ other, other ≠ fullPath → out.2 !! other = files !! other)) ∧
  (∀ e, (dir_exists = false ∧ mkdir = Some e) ∨
        ((dir_exists = true ∨ mkdir = None) ∧ append = Some e) →
        out = (Raise (IOError e), files)).
Proof.
  intros fullPath out. split_and!.
  - subst fullPath. unfold log_path.
    destruct (endsWith joined (lit ".log")) eqn:Hlog,
             (endsWith joined (lit ".txt")) eqn:Htxt;
      cbn [negb andb]; rewrite ?Hlog, ?Htxt, ?endsWith_app; done.
  - subst fullPath. unfold log_path.
    by destruct (endsWith joined (lit ".log")), (endsWith joined (lit ".txt")).
  - unfold preview. destruct (200 <? length message) eqn:Hlong.
    + rewrite length_app, length_take. change (length (lit "...")) with 3. lia.
    + apply Nat.ltb_ge in Hlong. lia.
  - intros Hdir ->. subst out. unfold log_to_file.
    assert ((if dir_exists then None else mkdir) = None) as ->.
    { destruct Hdir as [->| ->]; [done|by destruct dir_exists]. }
    cbv zeta. cbn [fst snd]. fold fullPath. eexists. split_and!.
    + unfold log. cbn [last]. do 2 f_equal. f_equal.
      cbn [join]. by rewrite <- !app_assoc.
    + by rewrite lookup_insert_eq.
    + intros other Hother. by apply lookup_insert_ne.
  - intros e [[-> ->]|[Hdir ->]]; subst out; unfold log_to_file; [done|].
    assert ((if dir_exists then None else mkdir) = None) as ->; [|done].
    destruct Hdir as [->| ->]; [done|by destruct dir_exists].
Qed.

End LoggerFacts.

(** ** Command line *)

Section CliFacts.
Import Text Cli.

Lemma omap_id_none {A} (l : list (option A)) :
  (∀ x, x ∈ l → x = None) → omap (fun x => x) l = [].
Proof.
  induction l as [|x l IH]; intros Hl; [done|].
  simpl. rewrite (Hl x) by left. apply IH. intros y Hy. apply Hl. by right.
Qed.

(** X16: [loadCharacters] never returns an empty list: every character
    it returns is the default one or was fetched, and when the API key is
    missing or no fetch succeeds (also for an unknown id) it returns the
    default character alone. *)
Theorem loadCharacters_falls_back (Character : Type) (trim : string → string)
    (apiKey charactersArg : option string)
    (fetchCharacter : nat → string → string → option Character)
    (defaultCharacter : Character) :
  let loaded := loadCharacters Character trim apiKey charactersArg
                  fetchCharacter defaultCharacter in
  loaded ≠ [] ∧
  (∀ ch, ch ∈ loaded →
     ch = defaultCharacter ∨ ∃ i id k, fetchCharacter i id k = Some ch) ∧
  ((∀ i id k, fetchCharacter i id k = None) → loaded = [defaultCharacter]) ∧
  (default EmptyString apiKey = EmptyString → loaded = [defaultCharacter]).
Proof.
  intros loaded. subst loaded. unfold loadCharacters.
  destruct apiKey as [k|]; [|split_and!; try done; intros ch ->%list_elem_of_singleton; by left].
  case_decide as Hk;
    [split_and!; try done; intros ch ->%list_elem_of_singleton; by left|].
  set (ids := match charactersArg with Some arg => map trim (split comma arg) | None => [] end).
  set (fetched := imap (fun i id => fetchCharacter i id k) ids).
  assert (∀ ch, ch ∈ omap (fun x => x) fetched → ∃ i id k', fetchCharacter i id k' = Some ch)
    as Hfetched.
  { intros ch (o & Ho & ->)%list_elem_of_omap.
    apply elem_of_lookup_imap_1 in Ho as (i & id' & Heq & _). by exists i, id', k. }
  split_and!.
  - destruct (0 <? length ids); simpl; [|done].
    destruct (omap _ fetched); simpl; done.
  - intros ch Hch. destruct (0 <? length ids); simpl in Hch.
    + remember (omap (fun x => x) fetched) as got eqn:Hgot in Hch.
      destruct got as [|c l]; simpl in Hch.
      * apply list_elem_of_singleton in Hch as ->. by left.
      * right. apply Hfetched. by rewrite <- Hgot.
    + apply list_elem_of_singleton in Hch as ->. by left.
  - intros Hnone. rewrite omap_id_none; [by destruct (0 <? length ids)|].
    intros o (i & id' & -> & _)%elem_of_lookup_imap_1. apply Hnone.
  - simpl. intros ->. done.
Qed.



(** X18: an agent is started once per character id: after a
    [startAgent] that returned clients, [startAgent] for the same id
    returns the same clients without starting anything, and leaves
    [runningAgents] as it is; a start that throws records nothing. *)
Theorem startAgent_once (running : gmap string (list client)) (characterId : string)
    (start : string + list client) :
  let first := startAgent running characterId start in
  match first.1 with
  | inr clients =>
      ∀ again, startAgent first.2 characterId again = (inr clients, first.2)
  | inl e => first.2 = running
  end.
Proof.
  intros first. subst first. unfold startAgent.
  destruct (running !! characterId) as [clients|] eqn:Hrun; simpl.
  - intros again. by rewrite Hrun.
  - destruct start as [e|clients]; simpl; [done|].
    intros again. by rewrite lookup_insert_eq.
Qed.

End CliFacts.

(** ** Pacing, readiness, malformed responses *)

Section PacingFacts.
Import RequestQueue.
Context {V : Type}.

Lemma served_paced (t : nat) (done : list (request V)) (tail pre post : list (event V))
    (u : nat) :
  tail = [] ∨ (∃ j, tail = [Started j]) →
  served t done ++ tail = pre ++ Started u :: post →
  pre = [] ∨ ∃ pre', pre = pre' ++ [Paced].
Proof.
  intros Htail. revert t pre. induction done as [|r done IH]; intros t pre Heq.
  - simpl in Heq. destruct Htail as [->|[j ->]].
    + by destruct pre.
    + destruct pre as [|e pre]; [by left|].
      injection Heq as _ Heq. by destruct pre.
  - simpl in Heq.
    destruct pre as [|e1 pre]; [by left|]. injection Heq as <- Heq.
    destruct pre as [|e2 pre].
    { simpl in Heq. injection Heq as Heq _. unfold verdict in Heq. by destruct (r 0). }
    injection Heq as <- Heq.
    destruct pre as [|e3 pre]; [done|]. injection Heq as <- Heq.
    right. destruct (IH (S t) pre Heq) as [->|(pre' & ->)].
    + by exists [Started t; verdict t r].
    + by exists (Started t :: verdict t r :: Paced :: pre').
Qed.

(** X19: the queue paces every operation: in every reachable trace the
    call of an operation other than the very first event is immediately
    preceded by the random delay, so no two operations are called
    without this delay between them. *)
Theorem queue_paces_every_operation (sched : list (input V))
    (pre post : list (event V)) (u : nat) :
  trace (mem (run init sched)) = pre ++ Started u :: post →
  pre = [] ∨ ∃ pre', pre = pre' ++ [Paced].
Proof.
  intros Heq. pose proof (reachable_consistent sched) as Hs.
  apply reachable_trace in Hs as (done & rest & tail & _ & _ & Htr & Htail & _).
  rewrite Htr in Heq. apply (served_paced 0 done tail pre post u); [|done].
  destruct Htail as [->|[-> _]]; eauto.
Qed.

End PacingFacts.

Lemma queue_paces_every_operation_witness :
  let sched := [RequestQueue.Submit RequestQueue.opA;
                RequestQueue.Submit RequestQueue.opB;
                RequestQueue.Wake 0; RequestQueue.Wake 0] in
  RequestQueue.trace (RequestQueue.mem (RequestQueue.run RequestQueue.init sched)) =
    [RequestQueue.Started 0; RequestQueue.Resolved 0 "a"; RequestQueue.Paced] ++
    RequestQueue.Started 1 :: [] ∧
  ([RequestQueue.Started 0; RequestQueue.Resolved 0 "a"; RequestQueue.Paced] = [] ∨
   ∃ pre', [RequestQueue.Started 0; RequestQueue.Resolved 0 "a"; RequestQueue.Paced] =
           pre' ++ [RequestQueue.Paced]).
Proof.
  intros sched. split; [by vm_compute|].
  apply (queue_paces_every_operation sched
           [RequestQueue.Started 0; RequestQueue.Resolved 0 "a"; RequestQueue.Paced]
           [] 1).
  by vm_compute.
Defined.

Section ReadinessFacts.
Import RequestQueue Bootstrap.

(** X20: [onReady] is reached only when the remote call gave a
    non-empty user id and [populateTimeline] returned: then the id has
    been stored and [populateTimeline] called before it. *)
Theorem ready_only_with_user_id
    (before after : list (input (option string)))
    (remote : nat → outcome (option string)) (populate ready : outcome unit)
    (acts : list action) :
  finish_initialization (run init before) after remote populate ready = Some acts →
  OnReady ∈ acts →
  ∃ userId rest,
    remote 0 = Fulfils (Some userId) ∧ userId ≠ EmptyString ∧
    populate = Fulfils () ∧
    acts = [LogInfo "Twitter user ID:"; SetTwitterUserId userId; PopulateTimeline;
            OnReady] ++ rest.
Proof.
  intros Hfin Hready. pose proof (reachable_consistent before) as Hs.
  unfold finish_initialization in Hfin.
  destruct (await_add_first_outcome _ _ (user_id_request remote) after Hs) as [Hq|Hq];
    rewrite Hq in Hfin; [done|].
  simpl in Hfin. injection Hfin as <-.
  unfold user_id_request in *. destruct (remote 0) as [[userId|]|e]; simpl in *.
  - destruct (bool_decide (userId = EmptyString)) eqn:Hempty.
    + apply elem_of_cons in Hready as [?|Hready]; [done|]. by apply elem_of_nil in Hready.
    + apply bool_decide_eq_false in Hempty.
      destruct populate as [[]|e].
      * by eexists _, _.
      * repeat (apply elem_of_cons in Hready as [?|Hready]; [done|]).
        by apply elem_of_nil in Hready.
  - apply elem_of_cons in Hready as [?|Hready]; [done|]. by apply elem_of_nil in Hready.
  - repeat (apply elem_of_cons in Hready as [?|Hready]; [done|]).
    by apply elem_of_nil in Hready.
Qed.

Lemma ready_only_with_user_id_witness :
  ∃ userId rest,
    (fun _ : nat => Fulfils (Some "42")) 0 = Fulfils (Some userId) ∧
    userId ≠ EmptyString ∧
    Fulfils () = Fulfils () ∧
    [LogInfo "Twitter user ID:"; SetTwitterUserId "42"; PopulateTimeline; OnReady] =
      [LogInfo "Twitter user ID:"; SetTwitterUserId userId; PopulateTimeline;
       OnReady] ++ rest.
Proof.
  apply (ready_only_with_user_id [] [Wake 0] (fun _ => Fulfils (Some "42"))
           (Fulfils ()) (Fulfils ())).
  - by vm_compute.
  - by vm_compute; repeat constructor.
Defined.

End ReadinessFacts.

Section MalformedFacts.
Import Timeline.

(** X21: one undefined or null entry in the response makes
    [fetchHomeTimeline] throw a TypeError, whatever the other entries
    are: the filter reads [__typename] of every entry before anything is
    normalised. *)
Theorem home_timeline_rejects_null_entry (raw : list js) (t : js) :
  t ∈ raw → nullish t = true →
  ∃ msg, fetchHomeTimeline (Ok raw) = Raise (TypeError msg).
Proof.
  intros Hin Hnull. unfold fetchHomeTimeline. simpl.
  assert (∃ msg, filter_r visible raw = Raise (TypeError msg)) as [msg ->];
    [|by exists msg].
  induction raw as [|x raw IH]; [by apply elem_of_nil in Hin|].
  simpl. destruct (visible x) as [b|e] eqn:Hx.
  - apply elem_of_cons in Hin as [->|Hin].
    + by destruct x.
    + destruct (IH Hin) as [msg ->]. by exists msg.
  - unfold visible in Hx. destruct x; simpl in Hx; try done; injection Hx as <-;
      by eexists.
Qed.

Lemma home_timeline_rejects_null_entry_witness :
  ∃ msg, fetchHomeTimeline (Ok [both_shapes; JNull; restricted]) = Raise (TypeError msg).
Proof.
  apply (home_timeline_rejects_null_entry [both_shapes; JNull; restricted] JNull).
  - right. left.
  - reflexivity.
Defined.

End MalformedFacts.
